(** * frigade-react: form aggregation, NPS survey and provider state

    A shallow embedding of three components of the SDK,

    - [MultiInputStepType]   (src/components/Forms/MultiInputStepType),
    - [FrigadeNPSSurvey]     (src/FrigadeNPSSurvey),
    - [FrigadeProvider]      (src/FrigadeProvider),

    and the properties of their hooks, handlers and guards.

    React state is modelled by explicit state passing: a component is a
    record holding the values of its [useState] cells, an event handler is a
    function from the state of the render that created it to the state after
    React has committed its updates and run the effects whose dependencies
    changed.  Asynchronous handlers are sequences of observable actions. *)

From Stdlib Require Import Ascii String DecimalString PrimFloat.
From stdpp Require Import gmap strings list.

Local Open Scope string_scope.
#[local] Set Warnings "-register-all".

(** ** JavaScript values *)

Module JS.

(** The values a JSON text denotes, which are also the values the form
    fields hand to the step.  A [string] stands for a JavaScript string, one
    character per code unit; a number is an IEEE 754 double.  The properties
    of an object are kept in the order in which the engine enumerates them
    (the order [JSON.stringify] and the spread syntax follow). *)
Inductive Value : Type :=
  | VNull
  | VBool (b : bool)
  | VNumber (x : float)
  | VString (s : string)
  | VArray (elements : list Value)
  | VObject (props : list (string * Value)).

(** [ToBoolean]: [null], [false], [0], [-0], [NaN] and the empty string are
    falsy, every object (arrays included) is truthy. *)
Definition truthy (v : Value) : bool :=
  match v with
  | VNull => false
  | VBool b => b
  | VNumber x => negb (PrimFloat.eqb x 0%float || PrimFloat.is_nan x)
  | VString s => negb (s =? "")
  | VArray _ => true
  | VObject _ => true
  end.

(** [a || b] on values. *)
Definition or_else (a b : Value) : Value := if truthy a then a else b.

(** Truthiness of a string, as in [if (data)] and [apiKey && ...]. *)
Definition truthy_string (s : string) : bool := negb (s =? "").

(** *** Property keys

    A key is an array index when it is the canonical decimal form of an
    integer below [2^32 - 1].  An ordinary object lists its array-index keys
    first, in ascending order, and then its other keys in creation order. *)

Definition digit_value (a : ascii) : option N :=
  let n := N_of_ascii a in
  if ((48 <=? n) && (n <=? 57))%N then Some (n - 48)%N else None.

Fixpoint digits_value (acc : N) (s : string) : option N :=
  match s with
  | EmptyString => Some acc
  | String a s' =>
      match digit_value a with
      | Some d => digits_value (10 * acc + d)%N s'
      | None => None
      end
  end.

Definition array_index (k : string) : option N :=
  match k with
  | EmptyString => None
  | String a rest =>
      if (Ascii.eqb a "0") && negb (rest =? "") then None
      else match digits_value 0%N k with
           | Some n => if (n <? 2 ^ 32 - 1)%N then Some n else None
           | None => None
           end
  end.

(** Own property lookup: [None] is [undefined]. *)
Fixpoint get_prop (k : string) (props : list (string * Value)) : option Value :=
  match props with
  | [] => None
  | (k', v) :: rest => if k' =? k then Some v else get_prop k rest
  end.

Definition has_prop (k : string) (props : list (string * Value)) : bool :=
  match get_prop k props with Some _ => true | None => false end.

(** Assigning an existing property keeps its place. *)
Fixpoint replace_prop (k : string) (v : Value) (props : list (string * Value))
  : list (string * Value) :=
  match props with
  | [] => []
  | (k', v') :: rest =>
      if k' =? k then (k, v) :: rest else (k', v') :: replace_prop k v rest
  end.

(** A new array-index key [k], of index [n], goes before the first key that
    is not an array index or is a larger one. *)
Fixpoint insert_index (n : N) (k : string) (v : Value)
    (props : list (string * Value)) : list (string * Value) :=
  match props with
  | [] => [(k, v)]
  | (k', v') :: rest =>
      match array_index k' with
      | Some n' =>
          if (n' <? n)%N then (k', v') :: insert_index n k v rest
          else (k, v) :: (k', v') :: rest
      | None => (k, v) :: (k', v') :: rest
      end
  end.

(** [CreateDataProperty(obj, k, v)] on the property list of [obj]. *)
Definition set_prop (k : string) (v : Value) (props : list (string * Value))
  : list (string * Value) :=
  if has_prop k props then replace_prop k v props
  else match array_index k with
       | Some n => insert_index n k v props
       | None => props ++ [(k, v)]
       end.

(** Decimal form of an index, for the keys of arrays and strings. *)
Definition index_key (i : nat) : string :=
  NilEmpty.string_of_uint (Nat.to_uint i).

Definition indexed {A} (f : A → Value) (l : list A) : list (string * Value) :=
  imap (λ i x, (index_key i, f x)) l.

Fixpoint code_units (s : string) : list string :=
  match s with
  | EmptyString => []
  | String a s' => String a EmptyString :: code_units s'
  end.

(** The properties that [{ ...v }] copies ([CopyDataProperties]): the own
    enumerable properties of an object, the elements of an array under their
    indices, the code units of a string under theirs, and nothing for the
    other primitives. *)
Definition spread (v : Value) : list (string * Value) :=
  match v with
  | VObject props => props
  | VArray elements => indexed id elements
  | VString s => indexed VString (code_units s)
  | VNull | VBool _ | VNumber _ => []
  end.

(** [v[k]] restricted to own properties of an object. *)
Definition get (v : Value) (k : string) : option Value :=
  match v with
  | VObject props => get_prop k props
  | _ => None
  end.

End JS.

(** ** FrigadeProvider *)

Module FrigadeProvider.

(** The value of an optional string prop ([userId?: string]); JavaScript
    callers can also pass [null]. *)
Inductive IdProp : Type :=
  | Undefined
  | PNull
  | Str (s : string).

Definition prop_truthy (p : IdProp) : bool :=
  match p with
  | Str s => JS.truthy_string s
  | _ => false
  end.

(** [!userId ? null : userId], and the value passed to the setter when the
    prop is truthy: [None] is [null]. *)
Definition prop_or_null (p : IdProp) : option string :=
  match p with
  | Str s => if JS.truthy_string s then Some s else None
  | _ => None
  end.

(** [Object.is] on prop values, which decides whether an effect with this
    prop as its dependency runs again. *)
Definition prop_same (p q : IdProp) : bool :=
  match p, q with
  | Undefined, Undefined => true
  | PNull, PNull => true
  | Str s, Str t => s =? t
  | _, _ => false
  end.

Definition expected_prefix : string := "api_public".

(** [Boolean(apiKey && apiKey.length > 10 &&
            apiKey.substring(0, 10) === 'api_public')] *)
Definition isValidApiKey (apiKey : string) : bool :=
  JS.truthy_string apiKey
  && (10 <? String.length apiKey)%nat
  && (substring 0 10 apiKey =? expected_prefix).

Record Props : Type := {
  publicApiKey : string;
  userId : IdProp;
  organizationId : IdProp;
}.

(** The [useState] cells of the provider that the effects write. *)
Record State : Type := {
  userIdValue : option string;
  organizationIdValue : option string;
  shouldGracefullyDegrade : bool;
}.

(** The three effects, each run after a commit in which its dependency
    changed (and after the first commit). *)
Definition userId_effect (p : Props) (st : State) : State :=
  match prop_or_null (userId p) with
  | Some u => {| userIdValue := Some u;
                 organizationIdValue := organizationIdValue st;
                 shouldGracefullyDegrade := shouldGracefullyDegrade st |}
  | None => st
  end.

Definition organizationId_effect (p : Props) (st : State) : State :=
  match prop_or_null (organizationId p) with
  | Some o => {| userIdValue := userIdValue st;
                 organizationIdValue := Some o;
                 shouldGracefullyDegrade := shouldGracefullyDegrade st |}
  | None => st
  end.

Definition apiKey_effect (p : Props) (st : State) : State :=
  {| userIdValue := userIdValue st;
     organizationIdValue := organizationIdValue st;
     shouldGracefullyDegrade :=
       if negb (isValidApiKey (publicApiKey p)) then true else false |}.

(** Initial values of the cells, from the props of the first render. *)
Definition initial (p : Props) : State :=
  {| userIdValue := prop_or_null (userId p);
     organizationIdValue := prop_or_null (organizationId p);
     shouldGracefullyDegrade := negb (isValidApiKey (publicApiKey p)) |}.

(** First render followed by all effects. *)
Definition mount (p : Props) : State :=
  apiKey_effect p (organizationId_effect p (userId_effect p (initial p))).

(** A later render with props [p], the previous ones being [old]: the cells
    keep their values and the effects whose dependency changed run. *)
Definition rerender (old p : Props) (st : State) : State :=
  let st1 := if prop_same (userId old) (userId p) then st
             else userId_effect p st in
  let st2 := if prop_same (organizationId old) (organizationId p) then st1
             else organizationId_effect p st1 in
  if publicApiKey old =? publicApiKey p then st2 else apiKey_effect p st2.

(** The provider after its mount and a sequence of renders; the props of
    the latest render are returned with the state. *)
Fixpoint renders (old : Props) (st : State) (ps : list Props) : Props * State :=
  match ps with
  | [] => (old, st)
  | p :: rest => renders p (rerender old p st) rest
  end.

Definition run (p : Props) (ps : list Props) : Props * State :=
  renders p (mount p) ps.

(** What the provider mounts under the context: [DataFetcher] is mounted
    only outside graceful degradation. *)
Inductive Rendered : Type :=
  | ChildrenOnly
  | ChildrenAndDataFetcher.

Definition render (st : State) : Rendered :=
  if shouldGracefullyDegrade st then ChildrenOnly else ChildrenAndDataFetcher.

(** The context value the provider publishes for the user and the
    organisation. *)
Definition context_userId (st : State) : option string := userIdValue st.
Definition context_organizationId (st : State) : option string :=
  organizationIdValue st.

(** *** Terms of the properties *)

(** The validity of a key in the words of the specification: non-empty,
    longer than 10 characters, and beginning with the expected prefix. *)
Definition spec_valid_key (key : string) : Prop :=
  key ≠ "" ∧ (10 < String.length key)%nat ∧ substring 0 10 key = expected_prefix.

(** The invariant of the degradation cell once the effects have run. *)
Definition degrade_inv (p : Props) (st : State) : Prop :=
  shouldGracefullyDegrade st = negb (isValidApiKey (publicApiKey p)).

(** *** Navigation and appearance *)

(** What the provider's own [navigate] does to the window. *)
Inductive WindowEffect : Type :=
  | window_open (url target : string)
  | set_location_href (url : string)
  | setTimeout (ms : nat) (callback : list WindowEffect).

Definition internalNavigate (url target : string) : list WindowEffect :=
  if target =? "_blank" then [window_open url "_blank"]
  else [setTimeout 50 [set_location_href url]].

(** The urls the window is sent to, timers included. *)
Fixpoint navigations (e : WindowEffect) : list string :=
  match e with
  | window_open url _ => [url]
  | set_location_href url => [url]
  | setTimeout _ callback => flat_map navigations callback
  end.

(** [{ ...base, ...overrides }] *)
Definition spread_over (base overrides : JS.Value) : JS.Value :=
  JS.VObject
    (fold_left (λ props kv, JS.set_prop kv.1 kv.2 props)
       (JS.spread overrides) (JS.spread base)).

Record Appearance : Type := {
  theme : JS.Value;
  styleOverrides : JS.Value;
}.

(** [config.defaultAppearance], whose two parts are optional. *)
Record AppearanceConfig : Type := {
  config_theme : option JS.Value;
  config_styleOverrides : option JS.Value;
}.

Section Config.

(** The functions a caller can supply as [config.navigate]. *)
Variable Navigate : Type.

(** The constant [DefaultAppearance] of types, which is not part of the
    sources at hand. *)
Variable DefaultAppearance : Appearance.

Record FrigadeConfig : Type := {
  navigate : option Navigate;
  defaultAppearance : option AppearanceConfig;
}.

(** [config?.defaultAppearance?.theme ?? {}] and the like. *)
Definition configured (part : AppearanceConfig → option JS.Value)
    (config : option FrigadeConfig) : JS.Value :=
  match config with
  | Some c =>
      match defaultAppearance c with
      | Some a => default (JS.VObject []) (part a)
      | None => JS.VObject []
      end
  | None => JS.VObject []
  end.

Definition appearance (config : option FrigadeConfig) : Appearance :=
  {| theme :=
       spread_over (theme DefaultAppearance) (configured config_theme config);
     styleOverrides :=
       spread_over (styleOverrides DefaultAppearance)
         (configured config_styleOverrides config) |}.

(** The [navigate] of the context:
    [config && config.navigate ? config.navigate : internalNavigate]. *)
Inductive ContextNavigate : Type :=
  | caller_navigate (f : Navigate)
  | own_navigate.

Definition context_navigate (config : option FrigadeConfig) : ContextNavigate :=
  match config with
  | Some c =>
      match navigate c with
      | Some f => caller_navigate f
      | None => own_navigate
      end
  | None => own_navigate
  end.

End Config.

(** *** Terms of the further properties *)

(** The latest truthy value among the props of the renders so far. *)
Definition latest_truthy (field : Props → IdProp) (history : list Props)
  : option string :=
  fold_left
    (λ acc p, match prop_or_null (field p) with Some s => Some s | None => acc end)
    history None.

(** The names of the own enumerable properties of a value. *)
Definition keys (v : JS.Value) : list string := (JS.spread v).*1.

Definition sample_default : Appearance :=
  {| theme :=
       JS.VObject [("colorPrimary", JS.VString "#0171F8");
                   ("colorText", JS.VString "#000000")];
     styleOverrides := JS.VObject [] |}.

Definition sample_config : FrigadeConfig unit :=
  {| navigate := None;
     defaultAppearance :=
       Some {| config_theme :=
                 Some (JS.VObject [("colorPrimary", JS.VString "#FF0000")]);
               config_styleOverrides := None |} |}.

End FrigadeProvider.

(** ** MultiInputStepType *)

Module FormValidationError.
(** Modelled from the spec: the type [FormValidationError] is declared in
    FrigadeForm/types, which is not part of the sources at hand; the spec
    gives it a field identifier and a message. *)
Record t : Type := { id : string; message : string }.
End FormValidationError.

Module FormInputType.
(** Modelled from the spec: [FormInputType] is declared in FrigadeForm/types;
    the component reads its [id] and its [type]. *)
Record t : Type := { id : string; type : string }.
End FormInputType.

(** How an evaluation ends: normally with a value, or by throwing. *)
Inductive Completion (A : Type) : Type :=
  | Normal (a : A)
  | Throw.
Arguments Normal {A} a.
Arguments Throw {A}.

Module MultiInputStepType.

Section Component.

(** [JSON.parse] ([None] when it throws a SyntaxError) and
    [JSON.stringify] on the values above are the engine's; the component is
    embedded over them. *)
Variable JSON_parse : string → option JS.Value.
Variable JSON_stringify : JS.Value → string.

(** [stepData.id] *)
Variable stepId : string.

(** [window.localStorage], when the window has one. *)
Definition Storage : Type := option (gmap string string).

Record State : Type := {
  allFormData : JS.Value;
  formValidationErrors : list FormValidationError.t;
  (** the value last passed to [setCanContinue] (the parent's cell) *)
  canContinue : bool;
  localStorage : Storage;
  (** the arguments of the calls of [onSaveData], latest last *)
  onSaveData : list JS.Value;
}.

Definition getLocalStorageKey : string :=
  "frigade-multiInputStepTypeData-" ++ stepId.

Definition loadFromLocalStorage (storage : Storage) : Completion JS.Value :=
  match storage with
  | Some store =>
      match store !! getLocalStorageKey with
      | Some data =>
          if JS.truthy_string data then
            match JSON_parse data with
            | Some v => Normal v
            | None => Throw
            end
          else Normal (JS.VObject [])
      | None => Normal (JS.VObject [])
      end
  | None => Normal (JS.VObject [])
  end.

(** The effect on [formValidationErrors]:
    [setCanContinue(formValidationErrors.length === 0)]. *)
Definition canContinue_effect (st : State) : State :=
  {| allFormData := allFormData st;
     formValidationErrors := formValidationErrors st;
     canContinue := (length (formValidationErrors st) =? 0)%nat;
     localStorage := localStorage st;
     onSaveData := onSaveData st |}.

(** The first render: [useState(loadFromLocalStorage() || {})] and
    [useState([])]; [parent] is the parent's current [canContinue]. *)
Definition initial (storage : Storage) (parent : bool) : Completion State :=
  match loadFromLocalStorage storage with
  | Normal v =>
      Normal {| allFormData := JS.or_else v (JS.VObject []);
                formValidationErrors := [];
                canContinue := parent;
                localStorage := storage;
                onSaveData := [] |}
  | Throw => Throw
  end.

(** The first render followed by its effects. *)
Definition mount (storage : Storage) (parent : bool) : Completion State :=
  match initial storage parent with
  | Normal st => Normal (canContinue_effect st)
  | Throw => Throw
  end.

(** [saveDataFromInputs(input, data)], as created by a render in which
    [allFormData] had the value [captured]. *)
Definition saveDataFromInputs (captured : JS.Value)
    (input : FormInputType.t) (data : JS.Value) (st : State) : State :=
  let newData :=
    JS.VObject
      (JS.set_prop (FormInputType.id input) data (JS.spread captured)) in
  {| allFormData := newData;
     formValidationErrors := formValidationErrors st;
     canContinue := canContinue st;
     localStorage :=
       match localStorage st with
       | Some store =>
           Some (<[getLocalStorageKey := JSON_stringify newData]> store)
       | None => None
       end;
     onSaveData := onSaveData st ++ [newData] |}.

(** The updater that a field's [setFormValidationErrors(errors)] hands to
    React, applied to the previous error list. *)
Definition errors_updater (input : FormInputType.t)
    (errors prev : list FormValidationError.t) : list FormValidationError.t :=
  if (length errors =? 0)%nat then
    List.filter
      (λ error, negb (FormValidationError.id error =? FormInputType.id input))
      prev
  else prev ++ errors.

(** [setFormValidationErrors(errors)] of the field [input]: the update is
    committed and the effect on the error list runs. *)
Definition setFormValidationErrors (input : FormInputType.t)
    (errors : list FormValidationError.t) (st : State) : State :=
  canContinue_effect
    {| allFormData := allFormData st;
       formValidationErrors :=
         errors_updater input errors (formValidationErrors st);
       canContinue := canContinue st;
       localStorage := localStorage st;
       onSaveData := onSaveData st |}.

(** What the rendered fields can do. *)
Inductive Event : Type :=
  | SaveInputData (input : FormInputType.t) (data : JS.Value)
  | ValidationErrors (input : FormInputType.t)
      (errors : list FormValidationError.t).

(** One call of a handler of a field, the handlers being those of a
    render in which [allFormData] had the value [captured].
    [saveDataFromInputs] reads that captured value; the updater of the
    error list reads the list React hands it, whatever the render. *)
Definition handle (captured : JS.Value) (st : State) (ev : Event) : State :=
  match ev with
  | SaveInputData input data => saveDataFromInputs captured input data st
  | ValidationErrors input errors => setFormValidationErrors input errors st
  end.

(** A call that follows a render of the state [st]: the handlers have
    captured the [allFormData] of [st]. *)
Definition step (st : State) (ev : Event) : State :=
  handle (allFormData st) st ev.

(** A sequence of calls with a render before each of them. *)
Definition steps (st : State) (evs : list Event) : State :=
  fold_left step evs st.

(** The mounted component in general: its cells together with the
    aggregate that the handlers of the latest render captured.  The cells
    are written at the call; React writes them at the next render, and
    since no handler reads them in between the two agree at every
    render. *)
Record Mounted : Type := {
  cells : State;
  captured_allFormData : JS.Value;
}.

(** What happens to the mounted component: a field calls a handler it
    received at the latest render, or React renders again. *)
Inductive Interaction : Type :=
  | Call (ev : Event)
  | Render.

Definition interact (m : Mounted) (i : Interaction) : Mounted :=
  match i with
  | Call ev =>
      {| cells := handle (captured_allFormData m) (cells m) ev;
         captured_allFormData := captured_allFormData m |}
  | Render =>
      {| cells := cells m;
         captured_allFormData := allFormData (cells m) |}
  end.

Definition interactions (m : Mounted) (acts : list Interaction) : Mounted :=
  fold_left interact acts m.

(** The component as a render of the state [st] leaves it. *)
Definition rendered (st : State) : Mounted :=
  {| cells := st; captured_allFormData := allFormData st |}.

(** Mounting the step and then calling its handlers, with a render
    before each call. *)
Definition run (storage : Storage) (parent : bool) (evs : list Event)
  : Completion State :=
  match mount storage parent with
  | Normal st => Normal (steps st evs)
  | Throw => Throw
  end.

End Component.

(** *** Terms of the properties *)

Definition error_of (input : FormInputType.t) (error : FormValidationError.t)
  : bool :=
  FormValidationError.id error =? FormInputType.id input.

(** The aggregation in the words of the specification: a non-empty report
    of a field replaces the errors the aggregate held for that field, an
    empty one removes them. *)
Definition spec_replaces_errors (input : FormInputType.t)
    (errors prev next : list FormValidationError.t) : Prop :=
  (errors ≠ [] →
     (∀ error, error ∈ prev → error_of input error = true → error ∉ next)
     ∧ List.filter (error_of input) next = errors)
  ∧ (errors = [] → ∀ error, error ∈ next → error_of input error = false).

(** The published value agrees with the error cell. *)
Definition continue_inv (st : State) : Prop :=
  canContinue st = (length (formValidationErrors st) =? 0)%nat.

(** The state [after] holds [vA] under [idA] and [vB] under [idB], leaves
    the other fields as they were in [before], was handed to [onSaveData]
    last, and is what the storage of the window, if there is one, holds
    under the key of the step, serialized. *)
Definition merged_and_persisted (JSON_stringify : JS.Value → string)
    (stepId : string) (before after : State)
    (idA : string) (vA : JS.Value) (idB : string) (vB : JS.Value) : Prop :=
  JS.get (allFormData after) idA = Some vA
  ∧ JS.get (allFormData after) idB = Some vB
  ∧ (∀ k, k ≠ idA → k ≠ idB →
       JS.get (allFormData after) k
       = JS.get_prop k (JS.spread (allFormData before)))
  ∧ last (onSaveData after) = Some (allFormData after)
  ∧ match localStorage before with
    | Some store =>
        ∃ store', localStorage after = Some store'
          ∧ store' !! getLocalStorageKey stepId
            = Some (JSON_stringify (allFormData after))
          ∧ ∀ k, k ≠ getLocalStorageKey stepId → store' !! k = store !! k
    | None => localStorage after = None
    end.

(** [window.localStorage.getItem(getLocalStorageKey())] where the window
    has a storage: [None] covers [null] and the absent storage. *)
Definition stored_value (stepId : string) (storage : Storage)
  : option string :=
  match storage with
  | Some store => store !! getLocalStorageKey stepId
  | None => None
  end.

(** The step is mounted, untouched, with aggregate [v]. *)
Definition starts_with (JSON_parse : string → option JS.Value)
    (stepId : string) (storage : Storage) (parent : bool) (v : JS.Value)
  : Prop :=
  ∃ st, mount JSON_parse stepId storage parent = Normal st
        ∧ allFormData st = v
        ∧ formValidationErrors st = []
        ∧ onSaveData st = [].

(** Hydration in the words of the specification: the aggregate is the
    JSON parse of whatever value is stored, and empty without one. *)
Definition spec_hydrates (JSON_parse : string → option JS.Value)
    (stepId : string) (storage : Storage) (parent : bool) : Prop :=
  match stored_value stepId storage with
  | Some stored =>
      ∃ v, JSON_parse stored = Some v
           ∧ starts_with JSON_parse stepId storage parent v
  | None => starts_with JSON_parse stepId storage parent (JS.VObject [])
  end.

(** *** Sample data *)

Definition field_A : FormInputType.t :=
  {| FormInputType.id := "A"; FormInputType.type := "text" |}.
Definition field_B : FormInputType.t :=
  {| FormInputType.id := "B"; FormInputType.type := "text" |}.

Definition required_A : FormValidationError.t :=
  {| FormValidationError.id := "A"; FormValidationError.message := "Required" |}.
Definition too_short_A : FormValidationError.t :=
  {| FormValidationError.id := "A"; FormValidationError.message := "Too short" |}.

(** A string of plain characters between double quotes. *)
Definition quoted (s : string) : string :=
  String "034"%char (s ++ String "034"%char "").

Definition member (kv : string * JS.Value) : string :=
  quoted kv.1 ++ ":"
  ++ match kv.2 with JS.VString s => quoted s | _ => "null" end.

(** [JSON.stringify] on the records of the examples: objects whose values
    are strings of plain characters. *)
Definition JSON_stringify_sample (v : JS.Value) : string :=
  match v with
  | JS.VObject props => "{" ++ String.concat "," (map member props) ++ "}"
  | _ => "null"
  end.

Definition empty_step : State :=
  {| allFormData := JS.VObject [];
     formValidationErrors := [];
     canContinue := true;
     localStorage := Some ∅;
     onSaveData := [] |}.

Definition ada_record : JS.Value := JS.VObject [("A", JS.VString "Ada")].

(** [JSON.parse] on the texts of the examples; on the empty text it throws,
    and it is asked no other. *)
Definition JSON_parse_sample (text : string) : option JS.Value :=
  if text =? "null" then Some JS.VNull
  else if text =? JSON_stringify_sample ada_record then Some ada_record
  else None.

Definition storage_with (stored : string) : Storage :=
  Some {[ "frigade-multiInputStepTypeData-step-1" := stored ]}.

(** *** Rendering the fields *)

(** The own enumerable property [name] of the aggregate, if it has
    one. *)
Definition own_property (allFormData : JS.Value) (name : string)
  : option JS.Value :=
  JS.get_prop name (JS.spread allFormData).

Section Fields.

(** The renderers of the input types: the functions from the props of a
    field to a node that the registries hold.  The three components of
    form-components are not part of the sources at hand. *)
Variable Renderer : Type.
Variables TextField MultipleChoice MultipleChoiceList : Renderer.

(** What a plain object inherits under a name from its prototype, which
    the member expression [mergedInputTypes[input.type]] also finds. *)
Variable inherited : string → option Renderer.

(** What a member expression finds on a value under a name that is not
    one of its own enumerable properties: the length of a string or of an
    array, the members of the prototypes.  These are the engine's. *)
Variable Builtin : Type.
Variable builtin_member : JS.Value → string → option Builtin.

(** The value of a member expression. *)
Inductive Member : Type :=
  | own_value (v : JS.Value)
  | builtin (b : Builtin)
  | undefined.

(** [allFormData[name]] *)
Definition member_of (allFormData : JS.Value) (name : string) : Member :=
  match own_property allFormData name with
  | Some v => own_value v
  | None =>
      match builtin_member allFormData name with
      | Some b => builtin b
      | None => undefined
      end
  end.

Definition DEFAULT_INPUT_TYPES : gmap string Renderer :=
  {[ "text" := TextField;
     "multipleChoice" := MultipleChoice;
     "multipleChoiceList" := MultipleChoiceList ]}.

(** [{ ...DEFAULT_INPUT_TYPES, ...customFormElements }], read as the map
    from its own names; [None] is an absent [customFormElements]. *)
Definition mergedInputTypes (customFormElements : option (gmap string Renderer))
  : gmap string Renderer :=
  default ∅ customFormElements ∪ DEFAULT_INPUT_TYPES.

(** [mergedInputTypes[type]]; [None] is [undefined]. *)
Definition renderer_of (merged : gmap string Renderer) (type : string)
  : option Renderer :=
  match merged !! type with
  | Some r => Some r
  | None => inherited type
  end.

(** The [span] of a field: its key, the renderer applied and the props of
    the field that depend on the step.  Its [onSaveInputData] and
    [setFormValidationErrors] are the events [SaveInputData formInput] and
    [ValidationErrors formInput]. *)
Record Field : Type := {
  key : string;
  renderer : Renderer;
  formInput : FormInputType.t;
  inputData : Member;
}.

Definition render_field (merged : gmap string Renderer)
    (allFormData : JS.Value) (input : FormInputType.t) : option Field :=
  match renderer_of merged (FormInputType.type input) with
  | Some r =>
      Some {| key := FormInputType.id input;
              renderer := r;
              formInput := input;
              inputData := member_of allFormData (FormInputType.id input) |}
  | None => None
  end.

(** [formElements.data?.map(...)]: one entry per configured input, [None]
    for [null]; [data] is [None] when the step configures no list. *)
Definition render_fields (customFormElements : option (gmap string Renderer))
    (data : option (list FormInputType.t)) (st : State)
  : list (option Field) :=
  match data with
  | Some inputs =>
      map (render_field (mergedInputTypes customFormElements) (allFormData st))
        inputs
  | None => []
  end.

End Fields.

(** *** Terms of the further properties *)

Definition is_save (ev : Event) : bool :=
  match ev with
  | SaveInputData _ _ => true
  | ValidationErrors _ _ => false
  end.

(** The value that the field [name] submitted last in [evs], if it
    submitted one. *)
Definition latest_save (name : string) (evs : list Event) : option JS.Value :=
  fold_left
    (λ acc ev,
       match ev with
       | SaveInputData input data =>
           if FormInputType.id input =? name then Some data else acc
       | ValidationErrors _ _ => acc
       end)
    evs None.

(** The error list that the field [name] reported last in [evs], if it
    reported one. *)
Definition latest_report (name : string) (evs : list Event)
  : option (list FormValidationError.t) :=
  fold_left
    (λ acc ev,
       match ev with
       | ValidationErrors input errors =>
           if FormInputType.id input =? name then Some errors else acc
       | SaveInputData _ _ => acc
       end)
    evs None.

(** A field reports errors under its own identifier. *)
Definition reports_own_errors (ev : Event) : Prop :=
  match ev with
  | ValidationErrors input errors =>
      Forall (λ error, FormValidationError.id error = FormInputType.id input)
        errors
  | SaveInputData _ _ => True
  end.

(** The part of the state that the submitted values decide, and the part
    that the error reports decide. *)
Definition data_part (st : State)
  : JS.Value * Storage * list JS.Value :=
  (allFormData st, localStorage st, onSaveData st).

Definition errors_part (st : State) : list FormValidationError.t * bool :=
  (formValidationErrors st, canContinue st).

(** The error list holds an error of the field [name]. *)
Definition has_error_of (name : string) (errors : list FormValidationError.t)
  : Prop :=
  ∃ error, error ∈ errors ∧ FormValidationError.id error = name.

(** The input type resolves to a renderer. *)
Definition resolves {Renderer : Type} (inherited : string → option Renderer)
    (merged : gmap string Renderer) (input : FormInputType.t) : bool :=
  match renderer_of Renderer inherited merged (FormInputType.type input) with
  | Some _ => true
  | None => false
  end.

(** Renderers by name, and the one member that the sample registry
    inherits. *)
Definition sample_inherited (name : string) : option string :=
  if name =? "toString" then Some "Object.prototype.toString" else None.

(** The one member besides own properties that the sample engine finds:
    the length of a string. *)
Definition sample_builtin_member (v : JS.Value) (name : string)
  : option string :=
  match v with
  | JS.VString _ => if name =? "length" then Some "length" else None
  | _ => None
  end.

Definition field_C : FormInputType.t :=
  {| FormInputType.id := "C"; FormInputType.type := "date" |}.

(** The storage and the callback hold the aggregate of the state. *)
Definition written_through (JSON_stringify : JS.Value → string)
    (stepId : string) (st : State) : Prop :=
  last (onSaveData st) = Some (allFormData st)
  ∧ ∀ store, localStorage st = Some store →
             store !! getLocalStorageKey stepId
             = Some (JSON_stringify (allFormData st)).

(** *** Terms of the properties of the mounted component *)

(** The calls among the interactions, in order. *)
Definition calls (acts : list Interaction) : list Event :=
  omap (λ i, match i with Call ev => Some ev | Render => None end) acts.

(** The calls [evs] with a render before each of them. *)
Definition with_renders (evs : list Event) : list Interaction :=
  flat_map (λ ev, [Render; Call ev]) evs.

(** Every submission among the interactions goes through handlers that
    captured the aggregate as it is at the call. *)
Fixpoint captures_current (JSON_stringify : JS.Value → string)
    (stepId : string) (m : Mounted) (acts : list Interaction) : Prop :=
  match acts with
  | [] => True
  | i :: rest =>
      match i with
      | Call (SaveInputData _ _) =>
          captured_allFormData m = allFormData (cells m)
      | _ => True
      end
      ∧ captures_current JSON_stringify stepId
          (interact JSON_stringify stepId m i) rest
  end.

End MultiInputStepType.

(** ** FormFooter *)

Module FormFooter.

(** The callbacks the footer hands to its buttons. *)
Inductive Callback : Type :=
  | onBack
  | onSecondaryClick
  | onPrimaryClick.

(** The props the footer gives to a [Button]; a prop it does not pass is
    [false]. *)
Record Button : Type := {
  title : string;
  onClick : Callback;
  secondary : bool;
  disabled : bool;
  withMargin : bool;
  type : string;
}.

(** The props the footer reads: the two button titles of [step], and
    [steps.length] for [steps]. *)
Record Props : Type := {
  primaryButtonTitle : option string;
  secondaryButtonTitle : option string;
  canContinue : bool;
  formType : string;
  steps_length : nat;
  selectedStep : nat;
  allowBackNavigation : bool;
}.

Definition buttonType (p : Props) : string :=
  if formType p =? "inline" then "inline" else "full-width".

(** A title as a condition: [undefined] and the empty string are falsy. *)
Definition titled (t : option string) : option string :=
  match t with
  | Some s => if JS.truthy_string s then Some s else None
  | None => None
  end.

(** The three places of the footer, in the order of the markup. *)
Record Rendered : Type := {
  back : option Button;
  secondaryButton : option Button;
  primaryButton : option Button;
}.

Definition render (p : Props) : Rendered :=
  {| back :=
       if (1 <? steps_length p)%nat
          && negb (selectedStep p =? 0)%nat
          && allowBackNavigation p
       then Some {| title := "←"; onClick := onBack; secondary := true;
                    disabled := false; withMargin := false;
                    type := buttonType p |}
       else None;
     secondaryButton :=
       match titled (secondaryButtonTitle p) with
       | Some t => Some {| title := t; onClick := onSecondaryClick;
                           secondary := true; disabled := false;
                           withMargin := false; type := buttonType p |}
       | None => None
       end;
     primaryButton :=
       match titled (primaryButtonTitle p) with
       | Some t => Some {| title := t; onClick := onPrimaryClick;
                           secondary := false;
                           disabled := negb (canContinue p);
                           withMargin := false; type := buttonType p |}
       | None => None
       end |}.

Definition buttons (r : Rendered) : list Button :=
  option_list (back r) ++ option_list (secondaryButton r)
  ++ option_list (primaryButton r).

End FormFooter.

(** ** FrigadeNPSSurvey *)

Module FrigadeNPSSurvey.

(** The fields of a step that the survey reads. *)
Record StepData : Type := {
  id : string;
  title : option string;
  subtitle : option string;
  primaryButtonTitle : option string;
  secondaryButtonTitle : option string;
}.

(** The third argument of [markStepCompleted]. *)
Inductive Payload : Type :=
  | Score (score : nat)                 (* [{ score }] *)
  | FeedbackText (feedbackText : string) (* [{ feedbackText }] *).

(** The asynchronous calls of the flows hook. *)
Inductive Call : Type :=
  | markStepCompleted (flowId stepId : string) (data : Payload)
  | markFlowCompleted (flowId : string).

(** What a handler does that can be observed from outside it. *)
Inductive Action : Type :=
  | setKeepCompletedFlowOpenDuringSession (flowId : string)
  | setScore (score : nat)
  | Issued (c : Call)
  | Fulfilled (c : Call)
  | Rejected (c : Call)
  | onButtonClick (step : StepData) (index : nat) (cta : string)
  | onDismiss.

(** How the promise of a call settles, if it does. *)
Inductive Settlement : Type :=
  | Fulfils
  | Rejects
  | Pends.

(** *** Handlers

    An [async] function body: it reads how the remote calls settle, writes
    the actions it performs, and stops at a rejected or pending [await]. *)
Definition Handler (A : Type) : Type :=
  (Call → Settlement) → list Action * option A.

Definition ret {A} (a : A) : Handler A := λ _, ([], Some a).

Definition bind {A B} (m : Handler A) (f : A → Handler B) : Handler B :=
  λ net,
    match m net with
    | (t, Some a) => let '(t', r) := f a net in ((t ++ t')%list, r)
    | (t, None) => (t, None)
    end.

Definition perform (a : Action) : Handler unit := λ _, ([a], Some tt).

Definition await (c : Call) : Handler unit :=
  λ net,
    match net c with
    | Fulfils => ([Issued c; Fulfilled c], Some tt)
    | Rejects => ([Issued c; Rejected c], None)
    | Pends => ([Issued c], None)
    end.

Definition when (b : bool) (m : Handler unit) : Handler unit :=
  if b then m else ret tt.

Declare Scope handler_scope.
Delimit Scope handler_scope with handler.
Notation "m ;; k" := (bind m (λ _, k))
  (at level 100, k at level 200, right associativity) : handler_scope.

Definition trace {A} (h : Handler A) (net : Call → Settlement) : list Action :=
  fst (h net).

(** *** The component *)

Section Component.

(** The constant [COMPLETED_FLOW] of api/common, the status of a flow marked
    complete; api/common is not part of the sources at hand and the
    component is embedded over the constant. *)
Variable COMPLETED_FLOW : string.

(** The flow definitions of api/flows, which the component only passes from
    [getFlow] to [targetingLogicShouldHideFlow]. *)
Variable Flow : Type.

(** The props the component reads; a callback prop is given by whether the
    caller supplied it. *)
Record Props : Type := {
  flowId : string;
  has_onDismiss : bool;
  has_onButtonClick : bool;
}.

(** The answers of the hooks [useFlows] and [useFlowOpens] during one
    render. *)
Record Hooks : Type := {
  isLoading : bool;
  getFlow : string → option Flow;
  targetingLogicShouldHideFlow : Flow → bool;
  getFlowStatus : string → option string;
  getNumberOfStepsCompleted : string → nat;
  shouldKeepCompletedFlowOpenDuringSession : string → bool;
  hasOpenModals : bool;
  getFlowSteps : string → list StepData;
  getCurrentStepIndex : string → nat;
}.

(** The [useState] cells of the component. *)
Record State : Type := {
  score : option nat;
  feedbackText : string;
}.

Record NPSNumberButton : Type := {
  label : nat;
  selected : bool;
  number_onClick : Handler unit;
}.

Record Button : Type := {
  button_title : string;
  secondary : bool;
  onClick : Handler unit;
}.

Record ScoreChooser : Type := {
  chooser_title : option string;
  chooser_subtitle : option string;
  numbers : list NPSNumberButton;
}.

Record ScoreReason : Type := {
  textarea_value : string;
  skip : Button;
  submit : Button;
}.

Record Survey : Type := {
  dismiss_onClick : Handler unit;
  scoreChooser : option ScoreChooser;
  scoreReason : option ScoreReason;
}.

Variable props : Props.
Variable hooks : Hooks.
Variable st : State.

Local Open Scope handler_scope.

(** [title || fallback] on an optional string. *)
Definition or_default (title : option string) (fallback : string) : string :=
  match title with
  | Some s => if JS.truthy_string s then s else fallback
  | None => fallback
  end.

(** [score === i + 1] *)
Definition is_selected (n : nat) : bool :=
  match score st with
  | Some s => (s =? n)%nat
  | None => false
  end.

Definition getScoreChooser (currentStep : StepData) : ScoreChooser :=
  {| chooser_title := title currentStep;
     chooser_subtitle := subtitle currentStep;
     numbers :=
       map (λ i,
              {| label := i + 1;
                 selected := is_selected (i + 1);
                 number_onClick :=
                   perform
                     (setKeepCompletedFlowOpenDuringSession (flowId props)) ;;
                   perform (setScore (i + 1)) ;;
                   await (markStepCompleted (flowId props) (id currentStep)
                            (Score (i + 1))) |})
           (seq 0 10) |}.

Definition getScoreReason (currentStep : StepData) : ScoreReason :=
  {| textarea_value := feedbackText st;
     skip :=
       {| button_title := or_default (secondaryButtonTitle currentStep) "Skip";
          secondary := true;
          onClick :=
            await (markFlowCompleted (flowId props)) ;;
            when (has_onButtonClick props)
              (perform (onButtonClick currentStep 1 "primary")) |};
     submit :=
       {| button_title := or_default (primaryButtonTitle currentStep) "Submit";
          secondary := false;
          onClick :=
            await (markStepCompleted (flowId props) (id currentStep)
                     (FeedbackText (feedbackText st))) ;;
            await (markFlowCompleted (flowId props)) ;;
            when (has_onButtonClick props)
              (perform (onButtonClick currentStep 1 "primary")) |} |}.

(** A screen that reads the fields of [currentStep] throws when
    [steps[getCurrentStepIndex(flowId)]] is [undefined]. *)
Definition screen {A} (shown : bool) (currentStep : option StepData)
    (make : StepData → A) : Completion (option A) :=
  if shown then
    match currentStep with
    | Some s => Normal (Some (make s))
    | None => Throw
    end
  else Normal None.

(** The render function; [Normal None] is [return null]. *)
Definition render : Completion (option Survey) :=
  if isLoading hooks then Normal None
  else match getFlow hooks (flowId props) with
  | None => Normal None
  | Some flow =>
  if targetingLogicShouldHideFlow hooks flow then Normal None
  else if bool_decide
            (getFlowStatus hooks (flowId props) = Some COMPLETED_FLOW)
  then Normal None
  else if (getNumberOfStepsCompleted hooks (flowId props) =? 1)%nat
          && negb (shouldKeepCompletedFlowOpenDuringSession hooks
                     (flowId props))
  then Normal None
  else if hasOpenModals hooks then Normal None
  else
    let steps := getFlowSteps hooks (flowId props) in
    let currentStep := steps !! getCurrentStepIndex hooks (flowId props) in
    match
      screen (getNumberOfStepsCompleted hooks (flowId props) =? 0)%nat
        currentStep getScoreChooser,
      screen (getNumberOfStepsCompleted hooks (flowId props) =? 1)%nat
        currentStep getScoreReason
    with
    | Normal chooser, Normal reason =>
        Normal (Some {| dismiss_onClick :=
                          await (markFlowCompleted (flowId props)) ;;
                          when (has_onDismiss props) (perform onDismiss);
                        scoreChooser := chooser;
                        scoreReason := reason |})
    | _, _ => Throw
    end
  end.

End Component.

(** The value of the [score] cell after the setter calls of a trace. *)
Definition score_after (t : list Action) (before : option nat) : option nat :=
  fold_left (λ s a, match a with setScore n => Some n | _ => s end) t before.

(** [a] happens before [b] in [t]: [t] has an occurrence of [a] with [b]
    only after it. *)
Definition before (a b : Action) (t : list Action) : Prop :=
  ∃ t1 t2, t = (t1 ++ a :: t2)%list ∧ b ∉ t1.

(** *** Terms of the properties *)

(** The guards other than the one on the status let the survey through. *)
Definition other_guards_pass (Flow : Type) (props : Props)
    (hooks : Hooks Flow) : Prop :=
  isLoading Flow hooks = false
  ∧ (∃ flow, getFlow Flow hooks (flowId props) = Some flow
             ∧ targetingLogicShouldHideFlow Flow hooks flow = false)
  ∧ hasOpenModals Flow hooks = false.

(** The guard in the words of the specification: a completed flow renders
    nothing unless it is kept open during the session, and then its status
    does not keep the survey from rendering. *)
Definition spec_completed_guard (COMPLETED_FLOW : string) (Flow : Type)
    (props : Props) (hooks : Hooks Flow) (st : State) : Prop :=
  getFlowStatus Flow hooks (flowId props) = Some COMPLETED_FLOW →
  (shouldKeepCompletedFlowOpenDuringSession Flow hooks (flowId props) = false →
   render COMPLETED_FLOW Flow props hooks st = Normal None)
  ∧ (shouldKeepCompletedFlowOpenDuringSession Flow hooks (flowId props) = true →
     other_guards_pass Flow props hooks →
     render COMPLETED_FLOW Flow props hooks st ≠ Normal None).

(** The actions of the callback, if the caller supplied one. *)
Definition notify (props : Props) (currentStep : StepData) : list Action :=
  if has_onButtonClick props then [onButtonClick currentStep 1 "primary"]
  else [].

(** What follows the issue of a call in the trace of its [await]. *)
Definition settled (net : Call → Settlement) (c : Call) : list Action :=
  match net c with
  | Fulfils => [Fulfilled c]
  | Rejects => [Rejected c]
  | Pends => []
  end.

(** The survey shows the score screen alone. *)
Definition shows_score_chooser (props : Props) (st : State)
    (currentStep : StepData) {Flow : Type} (COMPLETED_FLOW : string)
    (hooks : Hooks Flow) : Prop :=
  ∃ survey,
    render COMPLETED_FLOW Flow props hooks st = Normal (Some survey)
    ∧ scoreChooser survey = Some (getScoreChooser props st currentStep)
    ∧ scoreReason survey = None.

(** *** Sample data *)

Definition nps_props : Props :=
  {| flowId := "flow_nps"; has_onDismiss := true; has_onButtonClick := true |}.

Definition score_step : StepData :=
  {| id := "nps-score"; title := Some "How likely are you to recommend us?";
     subtitle := None; primaryButtonTitle := None;
     secondaryButtonTitle := None |}.

Definition reason_step : StepData :=
  {| id := "nps-reason"; title := None; subtitle := None;
     primaryButtonTitle := None; secondaryButtonTitle := None |}.

(** The hooks of a session in which the flow has [completed] completed
    steps and the given status, is kept open as [keep], and nothing else
    stands in the way. *)
Definition nps_hooks (status : option string) (completed : nat) (keep : bool)
  : Hooks unit :=
  {| isLoading := false;
     getFlow := λ _, Some tt;
     targetingLogicShouldHideFlow := λ _, false;
     getFlowStatus := λ _, status;
     getNumberOfStepsCompleted := λ _, completed;
     shouldKeepCompletedFlowOpenDuringSession := λ _, keep;
     hasOpenModals := false;
     getFlowSteps := λ _, [score_step; reason_step];
     getCurrentStepIndex := λ _, Nat.min completed 1 |}.

Definition nps_state : State := {| score := Some 7; feedbackText := "great" |}.

(** *** State updates *)

(** The [onChange] of the text area: [setFeedbackText(e.target.value)]. *)
Definition textarea_onChange (value : string) (st : State) : State :=
  {| score := score st; feedbackText := value |}.

(** The cells once React has committed the setter calls of a trace. *)
Definition commit (t : list Action) (st : State) : State :=
  {| score := score_after t (score st); feedbackText := feedbackText st |}.

(** The calls a trace issues, in order. *)
Definition issued (t : list Action) : list Call :=
  omap (λ a, match a with Issued c => Some c | _ => None end) t.

(** Every guard of the render function lets the survey through. *)
Definition guards_pass (COMPLETED_FLOW : string) (Flow : Type)
    (props : Props) (hooks : Hooks Flow) : Prop :=
  other_guards_pass Flow props hooks
  ∧ getFlowStatus Flow hooks (flowId props) ≠ Some COMPLETED_FLOW
  ∧ ¬ (getNumberOfStepsCompleted Flow hooks (flowId props) = 1
       ∧ shouldKeepCompletedFlowOpenDuringSession Flow hooks (flowId props)
         = false).

(** [steps[getCurrentStepIndex(flowId)]] *)
Definition currentStep_of (Flow : Type) (props : Props) (hooks : Hooks Flow)
  : option StepData :=
  getFlowSteps Flow hooks (flowId props)
    !! getCurrentStepIndex Flow hooks (flowId props).

(** One of the guards of the render function holds. *)
Definition some_guard_holds (COMPLETED_FLOW : string) (Flow : Type)
    (props : Props) (hooks : Hooks Flow) : Prop :=
  isLoading Flow hooks = true
  ∨ getFlow Flow hooks (flowId props) = None
  ∨ (∃ flow, getFlow Flow hooks (flowId props) = Some flow
             ∧ targetingLogicShouldHideFlow Flow hooks flow = true)
  ∨ getFlowStatus Flow hooks (flowId props) = Some COMPLETED_FLOW
  ∨ (getNumberOfStepsCompleted Flow hooks (flowId props) = 1
     ∧ shouldKeepCompletedFlowOpenDuringSession Flow hooks (flowId props)
       = false)
  ∨ hasOpenModals Flow hooks = true.

End FrigadeNPSSurvey.

(** * Properties *)

(** ** Objects: reading after writing *)

Module JSFacts.
Import JS.

Lemma get_prop_app_None k props more :
  get_prop k props = None → get_prop k (props ++ more) = get_prop k more.
Proof.
  induction props as [|[k' v'] props IH]; simpl; [done |].
  destruct (k' =? k); [done | exact IH].
Qed.

Lemma get_prop_app_ne k k' v props :
  k ≠ k' → get_prop k' (props ++ [(k, v)]) = get_prop k' props.
Proof.
  intros Hne. induction props as [|[k'' v''] props IH]; simpl.
  - by destruct (String.eqb_spec k k').
  - destruct (k'' =? k'); [done | exact IH].
Qed.

Lemma get_replace_prop_eq k v props :
  has_prop k props = true → get_prop k (replace_prop k v props) = Some v.
Proof.
  unfold has_prop.
  induction props as [|[k' v'] props IH]; simpl; [done |].
  destruct (String.eqb_spec k' k) as [->|Hne]; simpl.
  - by rewrite String.eqb_refl.
  - destruct (String.eqb_spec k' k); [done | exact IH].
Qed.

Lemma get_replace_prop_ne k k' v props :
  k ≠ k' → get_prop k' (replace_prop k v props) = get_prop k' props.
Proof.
  intros Hne. induction props as [|[k'' v''] props IH]; simpl; [done |].
  destruct (String.eqb_spec k'' k) as [->|Hne']; simpl.
  - by destruct (String.eqb_spec k k').
  - destruct (k'' =? k'); [done | exact IH].
Qed.

Lemma get_insert_index_eq n k v props :
  get_prop k props = None → get_prop k (insert_index n k v props) = Some v.
Proof.
  induction props as [|[k' v'] props IH]; simpl.
  - by rewrite String.eqb_refl.
  - destruct (String.eqb_spec k' k) as [->|Hne]; [done |]. intros Hnone.
    destruct (array_index k') as [n'|]; [destruct (n' <? n)%N |]; simpl;
      rewrite ?String.eqb_refl; try done.
    destruct (String.eqb_spec k' k); [done | by apply IH].
Qed.

Lemma get_insert_index_ne n k k' v props :
  k ≠ k' → get_prop k' (insert_index n k v props) = get_prop k' props.
Proof.
  intros Hne. induction props as [|[k'' v''] props IH]; simpl.
  - by destruct (String.eqb_spec k k').
  - destruct (array_index k'') as [n'|]; [destruct (n' <? n)%N |]; simpl;
      destruct (String.eqb_spec k k'); try done.
    destruct (k'' =? k'); [done | exact IH].
Qed.

(** A property just written reads back. *)
Lemma get_set_prop_eq k v props : get_prop k (set_prop k v props) = Some v.
Proof.
  unfold set_prop. destruct (has_prop k props) eqn:Hhas.
  - by apply get_replace_prop_eq.
  - assert (Hnone : get_prop k props = None).
    { unfold has_prop in Hhas. by destruct (get_prop k props). }
    destruct (array_index k) as [n|].
    + by apply get_insert_index_eq.
    + rewrite (get_prop_app_None _ _ _ Hnone). simpl.
      by rewrite String.eqb_refl.
Qed.

(** Writing a property leaves the others as they were. *)
Lemma get_set_prop_ne k k' v props :
  k ≠ k' → get_prop k' (set_prop k v props) = get_prop k' props.
Proof.
  intros Hne. unfold set_prop. destruct (has_prop k props).
  - by apply get_replace_prop_ne.
  - destruct (array_index k) as [n|].
    + by apply get_insert_index_ne.
    + by apply get_prop_app_ne.
Qed.

Lemma truthy_string_true (s : string) : truthy_string s = true ↔ s ≠ "".
Proof.
  unfold truthy_string. rewrite negb_true_iff.
  destruct (String.eqb_spec s ""); split; congruence.
Qed.

End JSFacts.

(** ** FrigadeProvider: API key validation and graceful degradation *)

Module FrigadeProviderSpec.
Import FrigadeProvider.

Lemma isValidApiKey_spec (key : string) :
  isValidApiKey key = true ↔ spec_valid_key key.
Proof.
  unfold isValidApiKey, spec_valid_key.
  rewrite !andb_true_iff, JSFacts.truthy_string_true, Nat.ltb_lt, String.eqb_eq.
  tauto.
Qed.

Lemma substring_prefix (p rest : string) :
  substring 0 (String.length p) (p ++ rest) = p.
Proof.
  induction p as [|a p IH]; simpl.
  - by destruct rest.
  - by rewrite IH.
Qed.

Lemma length_append (p rest : string) :
  String.length (p ++ rest) = String.length p + String.length rest.
Proof. induction p as [|a p IH]; simpl; [done | by rewrite IH]. Qed.

Lemma isValidApiKey_prefixed (c : ascii) (rest : string) :
  isValidApiKey (expected_prefix ++ String c rest) = true.
Proof.
  apply isValidApiKey_spec. split; [done | split].
  - rewrite length_append. simpl. lia.
  - exact (substring_prefix expected_prefix (String c rest)).
Qed.

(** The userId and organizationId effects leave the degradation cell
    alone. *)
Lemma userId_effect_degrade p st :
  shouldGracefullyDegrade (userId_effect p st) = shouldGracefullyDegrade st.
Proof. unfold userId_effect. by destruct (prop_or_null _). Qed.

Lemma organizationId_effect_degrade p st :
  shouldGracefullyDegrade (organizationId_effect p st)
  = shouldGracefullyDegrade st.
Proof. unfold organizationId_effect. by destruct (prop_or_null _). Qed.

Lemma apiKey_effect_degrade p st :
  shouldGracefullyDegrade (apiKey_effect p st)
  = negb (isValidApiKey (publicApiKey p)).
Proof. simpl. by destruct (isValidApiKey _). Qed.

Lemma mount_degrade_inv p : degrade_inv p (mount p).
Proof. unfold degrade_inv, mount. apply apiKey_effect_degrade. Qed.

Lemma rerender_degrade_inv old p st :
  degrade_inv old st → degrade_inv p (rerender old p st).
Proof.
  unfold degrade_inv, rerender. intros Hinv.
  destruct (String.eqb_spec (publicApiKey old) (publicApiKey p)) as [Heq|Hne].
  - rewrite <- Heq, <- Hinv.
    destruct (prop_same (userId old) (userId p)),
             (prop_same (organizationId old) (organizationId p));
      by rewrite ?organizationId_effect_degrade, ?userId_effect_degrade.
  - apply apiKey_effect_degrade.
Qed.

Lemma renders_degrade_inv ps : ∀ old st,
  degrade_inv old st →
  degrade_inv (renders old st ps).1 (renders old st ps).2.
Proof.
  induction ps as [|p ps IH]; intros old st Hinv; simpl; [done |].
  apply IH. by apply rerender_degrade_inv.
Qed.

(** C3.  At the first render, whose cell is the initial value
    [!isValidApiKey(publicApiKey)], after the effects of the mount (which
    leave that value) and after every later render, once the effects have
    run, the provider is in graceful-degradation mode (and mounts no
    DataFetcher) exactly when the API key of the latest render is not valid
    in the sense of the specification: non-empty, longer than 10 characters,
    first 10 characters equal to the prefix.  Every key made of the prefix
    followed by at least one more character, whatever it is, is accepted,
    from the first render on. *)
Theorem graceful_degradation_iff_invalid_key :
  (∀ p : Props,
      (shouldGracefullyDegrade (initial p) = true
       ↔ ¬ spec_valid_key (publicApiKey p))
      ∧ (render (initial p) = ChildrenOnly ↔ ¬ spec_valid_key (publicApiKey p))
      ∧ shouldGracefullyDegrade (mount p) = shouldGracefullyDegrade (initial p))
  ∧ (∀ (p : Props) (ps : list Props),
      let latest := (run p ps).1 in
      let st := (run p ps).2 in
      (shouldGracefullyDegrade st = true ↔ ¬ spec_valid_key (publicApiKey latest))
      ∧ (render st = ChildrenOnly ↔ ¬ spec_valid_key (publicApiKey latest)))
  ∧ (∀ (c : ascii) (rest : string) (uid oid : IdProp) (before : list Props),
      let key := expected_prefix ++ String c rest in
      (11 ≤ String.length key)%nat
      ∧ shouldGracefullyDegrade
          (initial {| publicApiKey := key; userId := uid; organizationId := oid |})
        = false
      ∧ shouldGracefullyDegrade
          (run {| publicApiKey := key; userId := uid; organizationId := oid |} []).2
        = false
      ∧ ∀ first,
          shouldGracefullyDegrade
            (run first
               (before ++ [{| publicApiKey := key; userId := uid;
                              organizationId := oid |}])).2
          = false).
Proof.
  assert (Hrun : ∀ p ps,
    shouldGracefullyDegrade (run p ps).2
    = negb (isValidApiKey (publicApiKey (run p ps).1))).
  { intros p ps. apply (renders_degrade_inv ps p (mount p)), mount_degrade_inv. }
  assert (Hiff : ∀ st key,
    shouldGracefullyDegrade st = negb (isValidApiKey key) →
    (shouldGracefullyDegrade st = true ↔ ¬ spec_valid_key key)
    ∧ (render st = ChildrenOnly ↔ ¬ spec_valid_key key)).
  { intros st key Hst.
    assert (Hd : shouldGracefullyDegrade st = true ↔ ¬ spec_valid_key key).
    { rewrite Hst, negb_true_iff, <- isValidApiKey_spec.
      by destruct (isValidApiKey _). }
    split; [exact Hd |]. rewrite <- Hd. unfold render.
    by destruct (shouldGracefullyDegrade _). }
  split; [| split].
  - intros p. destruct (Hiff (initial p) (publicApiKey p) eq_refl) as [Hd Hr].
    split; [exact Hd |]. split; [exact Hr |].
    exact (mount_degrade_inv p).
  - intros p ps. cbv zeta. apply Hiff, Hrun.
  - intros c rest uid oid before. cbv zeta. split; [| split; [| split]].
    + rewrite length_append. simpl. lia.
    + change (negb (isValidApiKey (expected_prefix ++ String c rest)) = false).
      by rewrite isValidApiKey_prefixed.
    + rewrite Hrun.
      change (negb (isValidApiKey (expected_prefix ++ String c rest)) = false).
      by rewrite isValidApiKey_prefixed.
    + intros first. rewrite Hrun.
      assert (Hlast : ∀ ps old st p, (renders old st (ps ++ [p])).1 = p).
      { induction ps as [|q ps IH]; intros; simpl; [done | apply IH]. }
      unfold run. rewrite Hlast.
      change (negb (isValidApiKey (expected_prefix ++ String c rest)) = false).
      by rewrite isValidApiKey_prefixed.
Qed.

(** *** The identity cells *)

Lemma userId_effect_falsy p st :
  prop_truthy (userId p) = false → userId_effect p st = st.
Proof.
  unfold userId_effect, prop_truthy, prop_or_null.
  by destruct (userId p) as [| |s]; [| | intros ->].
Qed.

Lemma organizationId_effect_falsy p st :
  prop_truthy (organizationId p) = false → organizationId_effect p st = st.
Proof.
  unfold organizationId_effect, prop_truthy, prop_or_null.
  by destruct (organizationId p) as [| |s]; [| | intros ->].
Qed.

Lemma userId_effect_org p st :
  organizationIdValue (userId_effect p st) = organizationIdValue st.
Proof. unfold userId_effect. by destruct (prop_or_null _). Qed.

Lemma organizationId_effect_user p st :
  userIdValue (organizationId_effect p st) = userIdValue st.
Proof. unfold organizationId_effect. by destruct (prop_or_null _). Qed.

(** What one render does to the two cells. *)
Lemma rerender_userIdValue old p st :
  userIdValue (rerender old p st)
  = if prop_same (userId old) (userId p) then userIdValue st
    else userIdValue (userId_effect p st).
Proof.
  unfold rerender.
  destruct (publicApiKey old =? publicApiKey p),
           (prop_same (organizationId old) (organizationId p)),
           (prop_same (userId old) (userId p));
    cbn [apiKey_effect userIdValue]; by rewrite ?organizationId_effect_user.
Qed.

Lemma rerender_organizationIdValue old p st :
  organizationIdValue (rerender old p st)
  = if prop_same (organizationId old) (organizationId p)
    then organizationIdValue st
    else organizationIdValue (organizationId_effect p st).
Proof.
  unfold rerender.
  destruct (publicApiKey old =? publicApiKey p),
           (prop_same (organizationId old) (organizationId p)),
           (prop_same (userId old) (userId p));
    cbn [apiKey_effect organizationIdValue]; try done;
    unfold organizationId_effect;
    destruct (prop_or_null (organizationId p)); cbn [organizationIdValue];
    by rewrite ?userId_effect_org.
Qed.

Lemma rerender_userId_falsy old p st :
  prop_truthy (userId p) = false →
  userIdValue (rerender old p st) = userIdValue st.
Proof.
  intros Hf. rewrite rerender_userIdValue, (userId_effect_falsy _ _ Hf).
  by destruct (prop_same _ _).
Qed.

Lemma rerender_organizationId_falsy old p st :
  prop_truthy (organizationId p) = false →
  organizationIdValue (rerender old p st) = organizationIdValue st.
Proof.
  intros Hf.
  rewrite rerender_organizationIdValue, (organizationId_effect_falsy _ _ Hf).
  by destruct (prop_same _ _).
Qed.

Lemma userId_effect_truthy p st :
  userIdValue (userId_effect p st) ≠ userIdValue st →
  prop_truthy (userId p) = true
  ∧ userIdValue (userId_effect p st) = prop_or_null (userId p).
Proof.
  unfold userId_effect, prop_truthy, prop_or_null.
  destruct (userId p) as [| |s]; try done.
  by destruct (JS.truthy_string s).
Qed.

Lemma organizationId_effect_truthy p st :
  organizationIdValue (organizationId_effect p st) ≠ organizationIdValue st →
  prop_truthy (organizationId p) = true
  ∧ organizationIdValue (organizationId_effect p st)
    = prop_or_null (organizationId p).
Proof.
  unfold organizationId_effect, prop_truthy, prop_or_null.
  destruct (organizationId p) as [| |s]; try done.
  by destruct (JS.truthy_string s).
Qed.

(** C10.  The user id of the context changes in a render only when the
    [userId] prop of that render is truthy, and then to that prop; through
    any sequence of renders whose [userId] prop is undefined, null or the
    empty string the context keeps the user id it had.  The same holds of
    the organization id. *)
Theorem falsy_id_props_keep_context (old : Props) (st : State) :
  (∀ ps : list Props,
      Forall (λ p, prop_truthy (userId p) = false) ps →
      context_userId (renders old st ps).2 = context_userId st)
  ∧ (∀ ps : list Props,
      Forall (λ p, prop_truthy (organizationId p) = false) ps →
      context_organizationId (renders old st ps).2 = context_organizationId st)
  ∧ (∀ p : Props,
      context_userId (rerender old p st) ≠ context_userId st →
      prop_truthy (userId p) = true
      ∧ context_userId (rerender old p st) = prop_or_null (userId p))
  ∧ (∀ p : Props,
      context_organizationId (rerender old p st) ≠ context_organizationId st →
      prop_truthy (organizationId p) = true
      ∧ context_organizationId (rerender old p st)
        = prop_or_null (organizationId p)).
Proof.
  unfold context_userId, context_organizationId.
  split; [| split; [| split]].
  - intros ps. revert old st.
    induction ps as [|p ps IH]; intros old st Hall; simpl; [done |].
    inversion Hall as [|? ? Hp Hps]; subst.
    rewrite (IH p _ Hps). by apply rerender_userId_falsy.
  - intros ps. revert old st.
    induction ps as [|p ps IH]; intros old st Hall; simpl; [done |].
    inversion Hall as [|? ? Hp Hps]; subst.
    rewrite (IH p _ Hps). by apply rerender_organizationId_falsy.
  - intros p. rewrite rerender_userIdValue.
    destruct (prop_same _ _); [done | apply userId_effect_truthy].
  - intros p. rewrite rerender_organizationIdValue.
    destruct (prop_same _ _); [done | apply organizationId_effect_truthy].
Qed.

(** A provider mounted for user-1 of org-1 and then rendered without ids,
    with null ids and with empty ids still publishes user-1 and org-1. *)
Lemma falsy_id_props_keep_context_witness :
  let first := {| publicApiKey := "api_public_0123456789";
                  userId := Str "user-1"; organizationId := Str "org-1" |} in
  let later :=
    [ {| publicApiKey := "api_public_0123456789";
         userId := Undefined; organizationId := Undefined |};
      {| publicApiKey := "api_public_0123456789";
         userId := PNull; organizationId := PNull |};
      {| publicApiKey := "api_public_0123456789";
         userId := Str ""; organizationId := Str "" |} ] in
  context_userId (run first later).2 = Some "user-1"
  ∧ context_organizationId (run first later).2 = Some "org-1".
Proof.
  intros first later. unfold run.
  destruct (falsy_id_props_keep_context first (mount first)) as (Hu & Ho & _).
  split.
  - rewrite (Hu later); [reflexivity |].
    repeat constructor.
  - rewrite (Ho later); [reflexivity |].
    repeat constructor.
Defined.

End FrigadeProviderSpec.

(** ** MultiInputStepType: validation errors, continuation, persistence *)

Module MultiInputStepTypeSpec.
Import MultiInputStepType.

(** *** Aggregation of validation errors *)

(** Field A held the error Required and now reports Too short: the
    aggregate holds both. *)
Lemma errors_updater_keeps_prior_errors :
  errors_updater field_A [too_short_A] [required_A] = [required_A; too_short_A]
  ∧ ¬ spec_replaces_errors field_A [too_short_A] [required_A]
        (errors_updater field_A [too_short_A] [required_A]).
Proof.
  split; [reflexivity |].
  intros [Hreplace _].
  destruct (Hreplace ltac:(discriminate)) as [_ Hexact].
  vm_compute in Hexact. discriminate Hexact.
Qed.

Lemma filter_elem_of {A} (f : A → bool) (l : list A) (x : A) :
  x ∈ List.filter f l ↔ x ∈ l ∧ f x = true.
Proof. rewrite !list_elem_of_In. apply filter_In. Qed.

(** C1 (amended).  A non-empty report of a field is appended to the
    aggregate, which keeps all the errors it held, those of that field
    included; an empty report removes from the aggregate exactly the errors
    with the identifier of that field and keeps the others in their order.
    The error cell of the component after the report is that list. *)
Theorem errors_updater_appends_or_clears
    (input : FormInputType.t) (errors prev : list FormValidationError.t) :
  let next := errors_updater input errors prev in
  (errors ≠ [] →
     next = (prev ++ errors)%list
     ∧ ∀ error, error ∈ next ↔ error ∈ prev ∨ error ∈ errors)
  ∧ (errors = [] →
     next = List.filter (λ error, negb (error_of input error)) prev
     ∧ (∀ error, error ∈ next ↔ error ∈ prev ∧ error_of input error = false)
     ∧ ∀ error, error ∈ next → FormValidationError.id error ≠ FormInputType.id input)
  ∧ ∀ JSON_stringify stepId st,
      formValidationErrors
        (step JSON_stringify stepId st (ValidationErrors input errors))
      = errors_updater input errors (formValidationErrors st).
Proof.
  cbv zeta. unfold errors_updater. split; [| split].
  - intros Hne. destruct errors as [|e errors]; [done |]. simpl.
    split; [done |]. intros error. by rewrite elem_of_app.
  - intros ->. simpl. split; [done |]. split.
    + intros error. rewrite filter_elem_of, negb_true_iff. reflexivity.
    + intros error. rewrite filter_elem_of, negb_true_iff.
      unfold error_of. intros [_ Hid] Heq. rewrite Heq, String.eqb_refl in Hid.
      discriminate.
  - reflexivity.
Qed.

Lemma errors_updater_appends_or_clears_witness :
  errors_updater field_A [too_short_A] [required_A]
  = ([required_A] ++ [too_short_A])%list
  ∧ errors_updater field_A [] [required_A; too_short_A] = [].
Proof.
  split.
  - apply (errors_updater_appends_or_clears field_A [too_short_A] [required_A]).
    discriminate.
  - apply (errors_updater_appends_or_clears field_A [] [required_A; too_short_A]).
    reflexivity.
Defined.

(** *** Continuation *)

Section Continue.

Variable JSON_parse : string → option JS.Value.
Variable JSON_stringify : JS.Value → string.
Variable stepId : string.

Abbreviation step := (step JSON_stringify stepId).
Abbreviation steps := (steps JSON_stringify stepId).
Abbreviation mount := (mount JSON_parse stepId).
Abbreviation run := (run JSON_parse JSON_stringify stepId).

Lemma continue_inv_iff st :
  continue_inv st → (canContinue st = true ↔ formValidationErrors st = []).
Proof.
  unfold continue_inv. intros ->.
  destruct (formValidationErrors st); simpl; split; congruence.
Qed.

Lemma canContinue_effect_inv st : continue_inv (canContinue_effect st).
Proof. reflexivity. Qed.

Lemma step_continue_inv st ev : continue_inv st → continue_inv (step st ev).
Proof.
  destruct ev as [input data | input errors]; [| intros _; reflexivity].
  unfold continue_inv. simpl. done.
Qed.

Lemma steps_continue_inv evs : ∀ st, continue_inv st → continue_inv (steps st evs).
Proof.
  induction evs as [|ev evs IH]; intros st Hinv; [done |].
  apply IH. by apply step_continue_inv.
Qed.

Lemma mount_continue_inv storage parent st :
  mount storage parent = Normal st → continue_inv st.
Proof.
  unfold MultiInputStepType.mount.
  destruct (initial _ _ _ _) as [st0|]; [| done].
  intros [= <-]. apply canContinue_effect_inv.
Qed.

Lemma mount_Normal storage parent v :
  loadFromLocalStorage JSON_parse stepId storage = Normal v →
  ∃ st, mount storage parent = Normal st
        ∧ allFormData st = JS.or_else v (JS.VObject [])
        ∧ formValidationErrors st = []
        ∧ canContinue st = true
        ∧ localStorage st = storage
        ∧ onSaveData st = [].
Proof.
  intros Hload. unfold MultiInputStepType.mount, initial. rewrite Hload.
  eexists. split; [reflexivity |]. done.
Qed.

(** C2.  From the mount on and after every interaction, the value published
    through [setCanContinue] is true exactly when the error cell is empty.
    It is true after the mount, a report of one error makes it false, and
    when the aggregate held no error before that report and the error
    carries the identifier of its field, the empty report of the field
    makes it true again. *)
Theorem canContinue_iff_no_errors (storage : Storage) (parent : bool)
    (st0 : State) :
  mount storage parent = Normal st0 →
  canContinue st0 = true
  ∧ (∀ evs, run storage parent evs = Normal (steps st0 evs)
            ∧ (canContinue (steps st0 evs) = true
               ↔ formValidationErrors (steps st0 evs) = []))
  ∧ (∀ evs input error,
       canContinue (step (steps st0 evs) (ValidationErrors input [error]))
       = false)
  ∧ (∀ evs input error,
       formValidationErrors (steps st0 evs) = [] →
       FormValidationError.id error = FormInputType.id input →
       canContinue
         (steps (steps st0 evs)
            [ValidationErrors input [error]; ValidationErrors input []])
       = true).
Proof.
  intros Hmount. pose proof (mount_continue_inv _ _ _ Hmount) as Hinv.
  split; [| split; [| split]].
  - revert Hmount. unfold MultiInputStepType.mount, initial.
    destruct (loadFromLocalStorage _ _ _) as [v|]; [| done]. by intros [= <-].
  - intros evs. split.
    + unfold MultiInputStepType.run. by rewrite Hmount.
    + apply continue_inv_iff, steps_continue_inv, Hinv.
  - intros evs input error. simpl. unfold errors_updater. simpl.
    rewrite length_app. simpl. by rewrite Nat.add_1_r.
  - intros evs input error Hnone Hid. simpl. rewrite Hnone.
    unfold errors_updater. simpl. by rewrite Hid, String.eqb_refl.
Qed.

End Continue.

(** A step that mounts without storage passes through the states above:
    continuation is granted, withdrawn by an error of field A and granted
    again when field A reports no error. *)
Lemma canContinue_iff_no_errors_witness :
  let parse := λ _ : string, @None JS.Value in
  let stringify := λ _ : JS.Value, "{}" in
  ∃ st0, MultiInputStepType.mount parse "step-1" None false = Normal st0
    ∧ canContinue st0 = true
    ∧ canContinue
        (step stringify "step-1" st0 (ValidationErrors field_A [required_A]))
      = false
    ∧ canContinue
        (steps stringify "step-1" st0
           [ValidationErrors field_A [required_A]; ValidationErrors field_A []])
      = true.
Proof.
  intros parse stringify.
  eexists. split; [reflexivity |].
  pose proof (canContinue_iff_no_errors parse stringify "step-1" None false _
                eq_refl) as (Htrue & _ & Hfalse & Hagain).
  split; [exact Htrue |]. split.
  - exact (Hfalse [] field_A required_A).
  - exact (Hagain [] field_A required_A eq_refl eq_refl).
Defined.

(** *** Merging and persisting field values *)

Section Persist.

Variable JSON_stringify : JS.Value → string.
Variable stepId : string.

Abbreviation step := (step JSON_stringify stepId).
Abbreviation steps := (steps JSON_stringify stepId).
Abbreviation key := (getLocalStorageKey stepId).
Abbreviation merged_and_persisted :=
  (merged_and_persisted JSON_stringify stepId).

Lemma getLocalStorageKey_pattern :
  key = "frigade-multiInputStepTypeData-" ++ stepId.
Proof. reflexivity. Qed.

Lemma save_allFormData st input data :
  allFormData (step st (SaveInputData input data))
  = JS.VObject
      (JS.set_prop (FormInputType.id input) data (JS.spread (allFormData st))).
Proof. reflexivity. Qed.

Lemma save_then_save st A vA B vB :
  FormInputType.id A ≠ FormInputType.id B →
  merged_and_persisted st (steps st [SaveInputData A vA; SaveInputData B vB])
    (FormInputType.id A) vA (FormInputType.id B) vB.
Proof.
  intros Hne. unfold merged_and_persisted. simpl.
  split; [| split; [| split; [| split]]].
  - rewrite JSFacts.get_set_prop_ne by done. apply JSFacts.get_set_prop_eq.
  - apply JSFacts.get_set_prop_eq.
  - intros k HkA HkB. by rewrite !JSFacts.get_set_prop_ne.
  - by rewrite last_snoc.
  - destruct (localStorage st) as [store|]; [| done].
    eexists. split; [reflexivity |]. split.
    + by rewrite lookup_insert_eq.
    + intros k Hk. by rewrite !lookup_insert_ne.
Qed.

Lemma merged_and_persisted_swap before after idA vA idB vB :
  merged_and_persisted before after idB vB idA vA →
  merged_and_persisted before after idA vA idB vB.
Proof.
  unfold merged_and_persisted. intros (HB & HA & Hother & Hsave & Hstore).
  split; [done |]. split; [done |]. split; [| done].
  intros k HkA HkB. by apply Hother.
Qed.

(** Submissions with a render before each of them.  From any state of
    the step, when two fields with distinct identifiers submit their
    values, in either order, each through the handlers of the render that
    follows the previous submission, the aggregate maps A to valueA and B
    to valueB and leaves the other fields as they were, it is the record
    handed to [onSaveData] last, and the storage of the window holds its
    serialization under [frigade-multiInputStepTypeData-<stepId>]; the two
    orders give records with the same fields. *)
Theorem merges_of_distinct_fields_commute (st : State)
    (A B : FormInputType.t) (valueA valueB : JS.Value) :
  FormInputType.id A ≠ FormInputType.id B →
  let ab := steps st [SaveInputData A valueA; SaveInputData B valueB] in
  let ba := steps st [SaveInputData B valueB; SaveInputData A valueA] in
  key = "frigade-multiInputStepTypeData-" ++ stepId
  ∧ merged_and_persisted st ab
      (FormInputType.id A) valueA (FormInputType.id B) valueB
  ∧ merged_and_persisted st ba
      (FormInputType.id A) valueA (FormInputType.id B) valueB
  ∧ ∀ k, JS.get (allFormData ab) k = JS.get (allFormData ba) k.
Proof.
  intros Hne ab ba.
  assert (Hab : merged_and_persisted st ab
                  (FormInputType.id A) valueA (FormInputType.id B) valueB)
    by by apply save_then_save.
  assert (Hba : merged_and_persisted st ba
                  (FormInputType.id A) valueA (FormInputType.id B) valueB)
    by by apply merged_and_persisted_swap, save_then_save.
  split; [reflexivity |]. split; [done |]. split; [done |].
  intros k.
  destruct Hab as (HabA & HabB & Habk & _), Hba as (HbaA & HbaB & Hbak & _).
  destruct (decide (k = FormInputType.id A)) as [->|HkA]; [congruence |].
  destruct (decide (k = FormInputType.id B)) as [->|HkB]; [congruence |].
  by rewrite Habk, Hbak.
Qed.

(** Two submissions made through the handlers of one and the same render
    both start from the aggregate that render captured: the second one
    does not see the first. *)
Remark stale_capture_drops_first_write st A vA B vB :
  FormInputType.id A ≠ FormInputType.id B →
  let captured := allFormData st in
  let after :=
    saveDataFromInputs JSON_stringify stepId captured B vB
      (saveDataFromInputs JSON_stringify stepId captured A vA st) in
  JS.get (allFormData after) (FormInputType.id A)
  = JS.get_prop (FormInputType.id A) (JS.spread captured).
Proof. intros Hne. simpl. by rewrite JSFacts.get_set_prop_ne. Qed.

End Persist.

(** Fields A and B of step-1 submit Ada and Lovelace, with a render in
    between. *)
Lemma merges_of_distinct_fields_commute_witness :
  let ab := MultiInputStepType.steps JSON_stringify_sample "step-1" empty_step
              [SaveInputData field_A (JS.VString "Ada");
               SaveInputData field_B (JS.VString "Lovelace")] in
  let ba := MultiInputStepType.steps JSON_stringify_sample "step-1" empty_step
              [SaveInputData field_B (JS.VString "Lovelace");
               SaveInputData field_A (JS.VString "Ada")] in
  allFormData ab
  = JS.VObject [("A", JS.VString "Ada"); ("B", JS.VString "Lovelace")]
  ∧ (∀ k, JS.get (allFormData ab) k = JS.get (allFormData ba) k)
  ∧ ∃ store,
      localStorage ab = Some store
      ∧ store !! "frigade-multiInputStepTypeData-step-1"
        = Some (JSON_stringify_sample (allFormData ab)).
Proof.
  intros ab ba.
  destruct (merges_of_distinct_fields_commute JSON_stringify_sample "step-1"
              empty_step field_A field_B (JS.VString "Ada")
              (JS.VString "Lovelace") ltac:(discriminate))
    as (_ & Hab & _ & Hsame).
  split; [reflexivity |]. split; [exact Hsame |].
  destruct Hab as (_ & _ & _ & _ & store & Hstore & Hkey & _).
  exists store. split; [exact Hstore | exact Hkey].
Defined.

(** *** Submissions through the handlers of one render *)

Section SameRender.

Variable JSON_stringify : JS.Value → string.
Variable stepId : string.

Abbreviation interactions := (interactions JSON_stringify stepId).

(** C6 (defect of the code).  When two fields with distinct identifiers
    submit their values through the handlers of one and the same render,
    [saveDataFromInputs] builds both records from the aggregate which
    that render captured: after the second call the aggregate holds
    valueB under B, but under A what the render held, not valueA, and
    this record is what [onSaveData] receives last and what the storage
    holds.  With a render before each call the aggregate holds valueA
    under A and valueB under B, which is what the claim states for every
    order of submission. *)
Theorem same_render_submissions_lose_first (m : Mounted)
    (A B : FormInputType.t) (valueA valueB : JS.Value) :
  FormInputType.id A ≠ FormInputType.id B →
  let same := interactions m [Call (SaveInputData A valueA);
                              Call (SaveInputData B valueB)] in
  let apart := interactions m [Render; Call (SaveInputData A valueA);
                               Render; Call (SaveInputData B valueB)] in
  JS.get (allFormData (cells same)) (FormInputType.id A)
  = own_property (captured_allFormData m) (FormInputType.id A)
  ∧ JS.get (allFormData (cells same)) (FormInputType.id B) = Some valueB
  ∧ last (onSaveData (cells same)) = Some (allFormData (cells same))
  ∧ (∀ store, localStorage (cells same) = Some store →
       store !! getLocalStorageKey stepId
       = Some (JSON_stringify (allFormData (cells same))))
  ∧ JS.get (allFormData (cells apart)) (FormInputType.id A) = Some valueA
  ∧ JS.get (allFormData (cells apart)) (FormInputType.id B) = Some valueB.
Proof.
  intros Hne. cbv zeta. simpl.
  split; [by rewrite JSFacts.get_set_prop_ne |].
  split; [apply JSFacts.get_set_prop_eq |].
  split; [by rewrite last_snoc |]. split.
  - intros store. destruct (localStorage (cells m)) as [store0|]; [| done].
    intros [= <-]. by rewrite lookup_insert_eq.
  - split; [| apply JSFacts.get_set_prop_eq].
    rewrite JSFacts.get_set_prop_ne by done. apply JSFacts.get_set_prop_eq.
Qed.

End SameRender.

(** Fields A and B of step-1 submit Ada and Lovelace from the first
    render: the step is left with Lovelace alone. *)
Lemma same_render_submissions_lose_first_witness :
  let same :=
    MultiInputStepType.interactions JSON_stringify_sample "step-1"
      (rendered empty_step)
      [Call (SaveInputData field_A (JS.VString "Ada"));
       Call (SaveInputData field_B (JS.VString "Lovelace"))] in
  allFormData (cells same) = JS.VObject [("B", JS.VString "Lovelace")]
  ∧ JS.get (allFormData (cells same)) "A" = None
  ∧ last (onSaveData (cells same))
    = Some (JS.VObject [("B", JS.VString "Lovelace")]).
Proof.
  intros same.
  destruct (same_render_submissions_lose_first JSON_stringify_sample "step-1"
              (rendered empty_step) field_A field_B (JS.VString "Ada")
              (JS.VString "Lovelace") ltac:(discriminate))
    as (HA & _ & Hlast & _).
  split; [reflexivity |]. split; [exact HA | exact Hlast].
Defined.

(** *** Hydration from storage *)

Section Hydrate.

Variable JSON_parse : string → option JS.Value.
Variable stepId : string.

Abbreviation mount := (mount JSON_parse stepId).
Abbreviation stored_value := (stored_value stepId).
Abbreviation starts_with := (starts_with JSON_parse stepId).
Abbreviation spec_hydrates := (spec_hydrates JSON_parse stepId).

Lemma loadFromLocalStorage_stored storage :
  loadFromLocalStorage JSON_parse stepId storage
  = match stored_value storage with
    | Some stored =>
        if JS.truthy_string stored then
          match JSON_parse stored with
          | Some v => Normal v
          | None => Throw
          end
        else Normal (JS.VObject [])
    | None => Normal (JS.VObject [])
    end.
Proof. by destruct storage. Qed.

Lemma starts_with_loaded storage parent v :
  loadFromLocalStorage JSON_parse stepId storage = Normal v →
  starts_with storage parent (if JS.truthy v then v else JS.VObject []).
Proof.
  intros Hload.
  destruct (mount_Normal JSON_parse stepId storage
              parent v Hload) as (st & Hmount & Hdata & Herrors & _ & _ & Hsave).
  exists st. by rewrite Hmount, Hdata.
Qed.

(** C7 (amended).  When the value stored under the key of the step is a
    non-empty string whose JSON parse is truthy, the step is mounted with
    exactly that parse as its aggregate, before any interaction.  When
    nothing is stored, the window has no storage, the stored value is the
    empty string, or its parse is falsy, the aggregate starts as the empty
    record.  When the stored value is non-empty and [JSON.parse] throws on
    it, so does mounting. *)
Theorem hydrate_on_mount (storage : Storage) (parent : bool) :
  (∀ stored v,
     stored_value storage = Some stored → stored ≠ "" →
     JSON_parse stored = Some v →
     (JS.truthy v = true → starts_with storage parent v)
     ∧ (JS.truthy v = false → starts_with storage parent (JS.VObject [])))
  ∧ (∀ stored,
       stored_value storage = Some stored → stored ≠ "" →
       JSON_parse stored = None →
       mount storage parent = Throw)
  ∧ (stored_value storage = None ∨ stored_value storage = Some "" →
     starts_with storage parent (JS.VObject [])).
Proof.
  split; [| split].
  - intros stored v Hstored Hne Hparse.
    assert (Hload : loadFromLocalStorage JSON_parse stepId storage = Normal v).
    { rewrite loadFromLocalStorage_stored, Hstored, Hparse.
      by rewrite (proj2 (JSFacts.truthy_string_true stored) Hne). }
    pose proof (starts_with_loaded storage parent v Hload) as Hstart.
    split; intros Htruthy; by rewrite Htruthy in Hstart.
  - intros stored Hstored Hne Hparse.
    unfold MultiInputStepType.mount, initial.
    rewrite loadFromLocalStorage_stored, Hstored, Hparse.
    by rewrite (proj2 (JSFacts.truthy_string_true stored) Hne).
  - intros Hnone.
    apply (starts_with_loaded storage parent (JS.VObject [])).
    rewrite loadFromLocalStorage_stored. by destruct Hnone as [-> | ->].
Qed.

(** Persisting and then mounting again: where [JSON.parse] gives back the
    record that [JSON.stringify] serialized, the aggregate a field change
    wrote to the storage is the aggregate of the next mount. *)
Lemma persist_then_hydrate (JSON_stringify : JS.Value → string)
    (st : State) (store : gmap string string)
    (input : FormInputType.t) (data : JS.Value) (parent : bool) :
  localStorage st = Some store →
  let saved :=
    step JSON_stringify stepId st (SaveInputData input data) in
  JSON_stringify (allFormData saved) ≠ "" →
  JSON_parse (JSON_stringify (allFormData saved)) = Some (allFormData saved) →
  starts_with (localStorage saved) parent (allFormData saved).
Proof.
  intros Hstore saved Hne Hparse.
  apply (starts_with_loaded (localStorage saved) parent (allFormData saved)).
  rewrite loadFromLocalStorage_stored.
  assert (Hstored : stored_value (localStorage saved)
                    = Some (JSON_stringify (allFormData saved))).
  { subst saved. simpl. rewrite Hstore. apply lookup_insert_eq. }
  rewrite Hstored, Hparse.
  by rewrite (proj2 (JSFacts.truthy_string_true _) Hne).
Qed.

End Hydrate.

(** With the text null stored under the key of step-1 the aggregate starts
    as the empty record, which is not the parse of that text, the null
    value; with the empty string stored it starts as the empty record
    although the empty string has no parse. *)
Lemma hydrate_null_is_not_parse :
  JSON_parse_sample "null" = Some JS.VNull
  ∧ starts_with JSON_parse_sample "step-1" (storage_with "null") true
      (JS.VObject [])
  ∧ ¬ spec_hydrates JSON_parse_sample "step-1" (storage_with "null") true
  ∧ JSON_parse_sample "" = None
  ∧ starts_with JSON_parse_sample "step-1" (storage_with "") true
      (JS.VObject [])
  ∧ ¬ spec_hydrates JSON_parse_sample "step-1" (storage_with "") true.
Proof.
  assert (Hnull : stored_value "step-1" (storage_with "null") = Some "null")
    by apply lookup_singleton_eq.
  assert (Hempty : stored_value "step-1" (storage_with "") = Some "")
    by apply lookup_singleton_eq.
  assert (Hmount_null :
    MultiInputStepType.mount JSON_parse_sample "step-1" (storage_with "null") true
    = Normal {| allFormData := JS.VObject []; formValidationErrors := [];
                canContinue := true; localStorage := storage_with "null";
                onSaveData := [] |}).
  { unfold MultiInputStepType.mount, initial.
    by rewrite loadFromLocalStorage_stored, Hnull. }
  split; [reflexivity |]. split; [| split; [| split; [reflexivity | split]]].
  - eexists. by split; [exact Hmount_null |].
  - unfold spec_hydrates. rewrite Hnull.
    intros (v & [= <-] & st & Hmount & Hdata & _).
    rewrite Hmount_null in Hmount. injection Hmount as <-. discriminate Hdata.
  - exists {| allFormData := JS.VObject []; formValidationErrors := [];
              canContinue := true; localStorage := storage_with "";
              onSaveData := [] |}.
    split; [| done].
    unfold MultiInputStepType.mount, initial.
    by rewrite loadFromLocalStorage_stored, Hempty.
  - unfold spec_hydrates. rewrite Hempty. by intros (v & [=] & _).
Qed.

(** What field A persisted for step-1 is the aggregate of the next mount. *)
Lemma hydrate_on_mount_witness :
  let saved := MultiInputStepType.steps JSON_stringify_sample "step-1" empty_step
                 [SaveInputData field_A (JS.VString "Ada")] in
  allFormData saved = ada_record
  ∧ starts_with JSON_parse_sample "step-1" (localStorage saved) false ada_record
  ∧ starts_with JSON_parse_sample "step-1" (Some ∅) false (JS.VObject [])
  ∧ starts_with JSON_parse_sample "step-1" None false (JS.VObject []).
Proof.
  intros saved. split; [reflexivity |].
  assert (Hstored : stored_value "step-1" (localStorage saved)
                    = Some (JSON_stringify_sample ada_record))
    by apply lookup_insert_eq.
  split; [| split].
  - destruct (hydrate_on_mount JSON_parse_sample "step-1" (localStorage saved)
                false) as (Hparsed & _ & _).
    destruct (Hparsed (JSON_stringify_sample ada_record) ada_record Hstored
                ltac:(discriminate) eq_refl) as [Htruthy _].
    exact (Htruthy eq_refl).
  - apply (hydrate_on_mount JSON_parse_sample "step-1" (Some ∅) false).
    left. reflexivity.
  - apply (hydrate_on_mount JSON_parse_sample "step-1" None false).
    left. reflexivity.
Defined.

End MultiInputStepTypeSpec.

(** ** FrigadeNPSSurvey: guards, score buttons and the reason screen *)

Module FrigadeNPSSurveySpec.
Import FrigadeNPSSurvey.
Local Open Scope list_scope.

(** *** The guard on completed flows *)

Section Guards.

Variable COMPLETED_FLOW : string.
Variable Flow : Type.

Abbreviation render := (render COMPLETED_FLOW Flow).
Abbreviation other_guards_pass := (other_guards_pass Flow).

(** C4 (amended).  A flow whose status is completed renders nothing,
    whether or not it is kept open during the session.  Keeping a flow open
    lifts the guard on flows with exactly one completed step: with the
    other guards passing and a status other than completed, such a flow
    renders nothing exactly when it is not kept open. *)
Theorem completed_flow_renders_nothing (props : Props) (hooks : Hooks Flow)
    (st : State) :
  (getFlowStatus Flow hooks (flowId props) = Some COMPLETED_FLOW →
   render props hooks st = Normal None)
  ∧ (getFlowStatus Flow hooks (flowId props) ≠ Some COMPLETED_FLOW →
     other_guards_pass props hooks →
     getNumberOfStepsCompleted Flow hooks (flowId props) = 1 →
     (render props hooks st = Normal None
      ↔ shouldKeepCompletedFlowOpenDuringSession Flow hooks (flowId props)
        = false)).
Proof.
  unfold FrigadeNPSSurvey.render. split.
  - intros Hstatus.
    destruct (isLoading Flow hooks); [done |].
    destruct (getFlow Flow hooks (flowId props)) as [flow|]; [| done].
    destruct (targetingLogicShouldHideFlow Flow hooks flow); [done |].
    by rewrite bool_decide_eq_true_2.
  - intros Hstatus (Hloading & (flow & Hflow & Htarget) & Hmodals) Hone.
    rewrite Hloading, Hflow, Htarget, Hmodals, Hone.
    rewrite bool_decide_eq_false_2 by done. simpl.
    destruct (shouldKeepCompletedFlowOpenDuringSession _ _ _); simpl;
      [| done].
    unfold screen. simpl.
    destruct (_ !! _); split; done.
Qed.

End Guards.

(** A survey whose two steps are completed, kept open during the session
    since the score was chosen: it renders nothing. *)
Lemma completed_flow_kept_open_renders_nothing :
  let hooks := nps_hooks (Some "COMPLETED_FLOW") 2 true in
  other_guards_pass unit nps_props hooks
  ∧ FrigadeNPSSurvey.render "COMPLETED_FLOW" unit nps_props hooks nps_state
    = Normal None
  ∧ ¬ spec_completed_guard "COMPLETED_FLOW" unit nps_props hooks nps_state.
Proof.
  intros hooks.
  assert (Hpass : other_guards_pass unit nps_props hooks).
  { split; [done |]. split; [by exists tt | done]. }
  split; [exact Hpass |]. split; [reflexivity |].
  intros Hspec. destruct (Hspec eq_refl) as [_ Hkept].
  by apply (Hkept eq_refl Hpass).
Qed.

(** A flow with one completed step renders its reason screen when it is
    kept open and nothing when it is not; once completed it renders
    nothing. *)
Lemma completed_flow_renders_nothing_witness :
  FrigadeNPSSurvey.render "COMPLETED_FLOW" unit nps_props
    (nps_hooks (Some "COMPLETED_FLOW") 2 true) nps_state = Normal None
  ∧ FrigadeNPSSurvey.render "COMPLETED_FLOW" unit nps_props
      (nps_hooks (Some "STARTED_FLOW") 1 false) nps_state = Normal None
  ∧ FrigadeNPSSurvey.render "COMPLETED_FLOW" unit nps_props
      (nps_hooks (Some "STARTED_FLOW") 1 true) nps_state ≠ Normal None.
Proof.
  destruct (completed_flow_renders_nothing "COMPLETED_FLOW" unit nps_props
              (nps_hooks (Some "COMPLETED_FLOW") 2 true) nps_state)
    as [Hcompleted _].
  destruct (completed_flow_renders_nothing "COMPLETED_FLOW" unit nps_props
              (nps_hooks (Some "STARTED_FLOW") 1 false) nps_state)
    as [_ Hleft].
  destruct (completed_flow_renders_nothing "COMPLETED_FLOW" unit nps_props
              (nps_hooks (Some "STARTED_FLOW") 1 true) nps_state)
    as [_ Hkept].
  assert (Hpass : ∀ keep,
    other_guards_pass unit nps_props (nps_hooks (Some "STARTED_FLOW") 1 keep)).
  { intros keep. split; [done |]. split; [by exists tt | done]. }
  split; [exact (Hcompleted eq_refl) |]. split.
  - apply (Hleft ltac:(discriminate) (Hpass false) eq_refl). reflexivity.
  - intros Hnull.
    apply (Hkept ltac:(discriminate) (Hpass true) eq_refl) in Hnull.
    discriminate Hnull.
Defined.

(** *** Handlers *)

Lemma before_intro (a b : Action) (t1 t2 : list Action) :
  b ∉ t1 → before a b (t1 ++ a :: t2).
Proof. intros Hb. by exists t1, t2. Qed.

(** In a list without [b], every member comes before [b]. *)
Lemma before_absent (a b : Action) (t : list Action) :
  a ∈ t → b ∉ t → before a b t.
Proof.
  intros Ha Hb. apply list_elem_of_split in Ha as (t1 & t2 & ->).
  apply before_intro. intros Hin. apply Hb, elem_of_app. by left.
Qed.

Ltac not_among :=
  cbn [app]; rewrite ?elem_of_cons, ?elem_of_nil; intuition congruence.

Section Handlers.

Variable props : Props.
Variable st : State.
Variable currentStep : StepData.
Variable net : Call → Settlement.

Abbreviation stepCall :=
  (markStepCompleted (flowId props) (id currentStep)
     (FeedbackText (feedbackText st))).
Abbreviation flowCall := (markFlowCompleted (flowId props)).
Abbreviation callback := (onButtonClick currentStep 1 "primary").
Abbreviation reason := (getScoreReason props st currentStep).
Abbreviation notify := (notify props currentStep).

Lemma submit_trace :
  trace (onClick (submit reason)) net
  = match net stepCall with
    | Fulfils =>
        [Issued stepCall; Fulfilled stepCall]
        ++ match net flowCall with
           | Fulfils => [Issued flowCall; Fulfilled flowCall] ++ notify
           | Rejects => [Issued flowCall; Rejected flowCall]
           | Pends => [Issued flowCall]
           end
    | Rejects => [Issued stepCall; Rejected stepCall]
    | Pends => [Issued stepCall]
    end.
Proof.
  unfold trace, notify. simpl. unfold bind, await.
  destruct (net stepCall); [| done | done].
  destruct (net flowCall); [| done | done].
  by destruct (has_onButtonClick props).
Qed.

Lemma skip_trace :
  trace (onClick (skip reason)) net
  = match net flowCall with
    | Fulfils => [Issued flowCall; Fulfilled flowCall] ++ notify
    | Rejects => [Issued flowCall; Rejected flowCall]
    | Pends => [Issued flowCall]
    end.
Proof.
  unfold trace, notify. simpl. unfold bind, await.
  destruct (net flowCall); [| done | done].
  by destruct (has_onButtonClick props).
Qed.

(** C5.  In every run of the Submit handler, whatever the feedback text and
    however the remote calls settle: the flow-completion call is issued
    only after the step-completion call with payload [{feedbackText}] has
    been fulfilled, and the [onButtonClick] callback fires only after both
    calls have been fulfilled.  When both calls are fulfilled the handler
    performs exactly: step completion issued and fulfilled, flow completion
    issued and fulfilled, then the callback if there is one. *)
Theorem submit_awaits_in_order :
  let t := trace (onClick (submit reason)) net in
  (Issued flowCall ∈ t → before (Fulfilled stepCall) (Issued flowCall) t)
  ∧ (∀ s i cta,
       onButtonClick s i cta ∈ t →
       before (Fulfilled stepCall) (onButtonClick s i cta) t
       ∧ before (Fulfilled flowCall) (onButtonClick s i cta) t)
  ∧ (net stepCall = Fulfils → net flowCall = Fulfils →
     t = [Issued stepCall; Fulfilled stepCall;
          Issued flowCall; Fulfilled flowCall] ++ notify)
  ∧ (net stepCall ≠ Fulfils → Issued flowCall ∉ t)
  ∧ (net stepCall ≠ Fulfils ∨ net flowCall ≠ Fulfils →
     ∀ s i cta, onButtonClick s i cta ∉ t).
Proof.
  cbv zeta. rewrite submit_trace. unfold notify.
  split; [| split; [| split; [| split]]].
  - destruct (net stepCall); [| not_among | not_among]. intros _.
    apply (before_intro _ _ [Issued stepCall]). not_among.
  - intros s i cta.
    destruct (net stepCall); [| not_among | not_among].
    destruct (net flowCall); [| not_among | not_among].
    destruct (has_onButtonClick props); [| not_among].
    intros _. split.
    + apply (before_intro _ _ [Issued stepCall]). not_among.
    + apply (before_intro _ _
               [Issued stepCall; Fulfilled stepCall; Issued flowCall]).
      not_among.
  - by intros -> ->.
  - destruct (net stepCall); [done | |]; intros _; not_among.
  - intros Hne s i cta.
    destruct (net stepCall); [| not_among | not_among].
    destruct (net flowCall); [| not_among | not_among].
    by destruct Hne.
Qed.

(** C9.  On the reason screen the Skip button is styled as secondary and
    the Submit button is not, and both report to the caller in the same
    way: whenever a handler of either button calls [onButtonClick], a
    callback was supplied and the arguments are the current step, the
    index 1 and the kind primary, never secondary; with a callback
    supplied and the awaited calls fulfilled, that call is the last thing
    each handler does. *)
Theorem skip_and_submit_report_primary :
  let skip_t := trace (onClick (skip reason)) net in
  let submit_t := trace (onClick (submit reason)) net in
  secondary (skip reason) = true
  ∧ secondary (submit reason) = false
  ∧ (∀ s i cta,
       onButtonClick s i cta ∈ skip_t ∨ onButtonClick s i cta ∈ submit_t →
       has_onButtonClick props = true
       ∧ s = currentStep ∧ i = 1 ∧ cta = "primary")
  ∧ (has_onButtonClick props = true → net flowCall = Fulfils →
     last skip_t = Some callback)
  ∧ (has_onButtonClick props = true →
     net stepCall = Fulfils → net flowCall = Fulfils →
     last submit_t = Some callback).
Proof.
  cbv zeta. rewrite submit_trace, skip_trace. unfold notify.
  split; [done |]. split; [done |]. split; [| split].
  - intros s i cta.
    destruct (net stepCall), (net flowCall), (has_onButtonClick props);
      simpl; rewrite ?elem_of_cons, ?elem_of_nil;
      intuition (try discriminate; congruence).
  - by intros -> ->.
  - by intros -> -> ->.
Qed.

End Handlers.

(** *** The score buttons *)

Section ScoreChooser.

Variable props : Props.
Variable st : State.
Variable currentStep : StepData.

Abbreviation chooser := (getScoreChooser props st currentStep).
Abbreviation scoreCall n :=
  (markStepCompleted (flowId props) (id currentStep) (Score n)).
Abbreviation keepOpen :=
  (setKeepCompletedFlowOpenDuringSession (flowId props)).
Abbreviation shows_score_chooser :=
  (shows_score_chooser props st currentStep).

Lemma number_button (i : nat) :
  i < 10 →
  numbers chooser !! i
  = Some {| label := i + 1;
            selected := is_selected st (i + 1);
            number_onClick :=
              (perform keepOpen ;; perform (setScore (i + 1)) ;;
               await (scoreCall (i + 1)))%handler |}.
Proof.
  intros Hi. unfold getScoreChooser. cbn [numbers].
  rewrite list_lookup_fmap, lookup_seq_lt by done. reflexivity.
Qed.

Lemma number_onClick_trace (n : nat) (net : Call → Settlement) :
  trace (perform keepOpen ;; perform (setScore n) ;; await (scoreCall n))%handler
    net
  = [keepOpen; setScore n; Issued (scoreCall n)] ++ settled net (scoreCall n).
Proof.
  unfold trace, settled, bind, perform, await.
  by destruct (net (scoreCall n)).
Qed.

(** C8.  The score screen has exactly 10 number buttons, labelled 1 to 10
    in this order, and it is the screen of a survey that passes the guards
    with no step completed.  For every n from 1 to 10, the handler of
    button n first sets the keep-open flag of the flow, then records the
    score n, then issues the step-completion call of the current step with
    payload [{score: n}], and does nothing else but await that call. *)
Theorem score_buttons_one_to_ten :
  length (numbers chooser) = 10
  ∧ label <$> numbers chooser = [1; 2; 3; 4; 5; 6; 7; 8; 9; 10]
  ∧ (∀ (Flow : Type) (COMPLETED_FLOW : string) (hooks : Hooks Flow),
       getFlowStatus Flow hooks (flowId props) ≠ Some COMPLETED_FLOW →
       other_guards_pass Flow props hooks →
       getNumberOfStepsCompleted Flow hooks (flowId props) = 0 →
       getFlowSteps Flow hooks (flowId props)
         !! getCurrentStepIndex Flow hooks (flowId props) = Some currentStep →
       shows_score_chooser COMPLETED_FLOW hooks)
  ∧ ∀ n : nat, (1 ≤ n ≤ 10)%nat →
      ∃ button,
        numbers chooser !! (n - 1) = Some button
        ∧ label button = n
        ∧ ∀ net,
            let t := trace (number_onClick button) net in
            t = [keepOpen; setScore n; Issued (scoreCall n)]
                ++ settled net (scoreCall n)
            ∧ score_after t (score st) = Some n
            ∧ before keepOpen (Issued (scoreCall n)) t.
Proof.
  split; [reflexivity |]. split; [reflexivity |]. split.
  - intros Flow COMPLETED_FLOW hooks Hstatus
      (Hloading & (flow & Hflow & Htarget) & Hmodals) Hzero Hstep.
    unfold shows_score_chooser, render.
    rewrite Hloading, Hflow, Htarget, Hmodals, Hzero, Hstep.
    rewrite bool_decide_eq_false_2 by done. simpl.
    eexists. split; [reflexivity |]. done.
  - intros n [Hlo Hhi].
    eexists. split; [apply number_button; lia |].
    replace (n - 1 + 1) with n by lia. cbn [label number_onClick].
    split; [done |]. intros net. cbv zeta.
    rewrite number_onClick_trace. split; [done |]. split.
    + unfold settled. by destruct (net (scoreCall n)).
    + apply (before_intro _ _ []). apply not_elem_of_nil.
Qed.

End ScoreChooser.

(** The survey of a fresh session shows the ten buttons, and button 7
    keeps the flow open, records 7 and completes the score step with 7. *)
Lemma score_buttons_one_to_ten_witness :
  let hooks := nps_hooks (Some "NOT_STARTED_FLOW") 0 false in
  let net := λ _ : Call, Fulfils in
  let call := markStepCompleted "flow_nps" "nps-score" (Score 7) in
  shows_score_chooser nps_props nps_state score_step "COMPLETED_FLOW" hooks
  ∧ ∃ button,
      numbers (getScoreChooser nps_props nps_state score_step) !! 6
      = Some button
      ∧ label button = 7
      ∧ trace (number_onClick button) net
        = [setKeepCompletedFlowOpenDuringSession "flow_nps"; setScore 7;
           Issued call; Fulfilled call].
Proof.
  intros hooks net call.
  destruct (score_buttons_one_to_ten nps_props nps_state score_step)
    as (_ & _ & Hshown & Hbutton).
  split.
  - apply (Hshown unit "COMPLETED_FLOW" hooks);
      [discriminate | | reflexivity | reflexivity].
    split; [done |]. split; [by exists tt | done].
  - destruct (Hbutton 7 ltac:(lia)) as (button & Hlookup & Hlabel & Htrace).
    exists button. split; [exact Hlookup |]. split; [exact Hlabel |].
    exact (proj1 (Htrace net)).
Defined.

(** Submit with the text great: the step is completed with the text, then
    the flow is completed, then the caller is told; Skip completes the flow
    and tells the caller in the same words. *)
Lemma submit_awaits_in_order_witness :
  let net := λ _ : Call, Fulfils in
  let stepCall := markStepCompleted "flow_nps" "nps-reason" (FeedbackText "great") in
  let flowCall := markFlowCompleted "flow_nps" in
  trace (onClick (submit (getScoreReason nps_props nps_state reason_step))) net
  = [Issued stepCall; Fulfilled stepCall; Issued flowCall; Fulfilled flowCall;
     onButtonClick reason_step 1 "primary"].
Proof.
  intros net stepCall flowCall.
  destruct (submit_awaits_in_order nps_props nps_state reason_step net)
    as (_ & _ & Hexact & _).
  exact (Hexact eq_refl eq_refl).
Defined.

Lemma skip_and_submit_report_primary_witness :
  let net := λ _ : Call, Fulfils in
  let reason := getScoreReason nps_props nps_state reason_step in
  last (trace (onClick (skip reason)) net)
  = Some (onButtonClick reason_step 1 "primary")
  ∧ last (trace (onClick (submit reason)) net)
    = Some (onButtonClick reason_step 1 "primary").
Proof.
  intros net reason.
  destruct (skip_and_submit_report_primary nps_props nps_state reason_step net)
    as (_ & _ & _ & Hskip & Hsubmit).
  split; [exact (Hskip eq_refl eq_refl) | exact (Hsubmit eq_refl eq_refl eq_refl)].
Defined.

End FrigadeNPSSurveySpec.

(** ** MultiInputStepType: sequences of interactions and rendering *)

Module MultiInputStepTypeMore.
Import MultiInputStepType.
Local Open Scope list_scope.

Lemma replace_replace_prop k v1 v2 props :
  JS.replace_prop k v2 (JS.replace_prop k v1 props) = JS.replace_prop k v2 props.
Proof.
  induction props as [|[k' v'] props IH]; simpl; [done |].
  destruct (String.eqb_spec k' k) as [->|Hne]; simpl.
  - by rewrite String.eqb_refl.
  - destruct (String.eqb_spec k' k); [done | by rewrite IH].
Qed.

Lemma replace_insert_index n k v1 v2 props :
  JS.get_prop k props = None →
  JS.replace_prop k v2 (JS.insert_index n k v1 props)
  = JS.insert_index n k v2 props.
Proof.
  induction props as [|[k' v'] props IH]; simpl.
  - by rewrite String.eqb_refl.
  - destruct (String.eqb_spec k' k) as [->|Hne]; [done |]. intros Hnone.
    destruct (JS.array_index k') as [n'|]; [destruct (n' <? n)%N |]; simpl;
      rewrite ?String.eqb_refl; try done.
    destruct (String.eqb_spec k' k); [done | by rewrite IH].
Qed.

Lemma replace_appended k v1 v2 props :
  JS.get_prop k props = None →
  JS.replace_prop k v2 (props ++ [(k, v1)]) = props ++ [(k, v2)].
Proof.
  induction props as [|[k' v'] props IH]; simpl.
  - by rewrite String.eqb_refl.
  - destruct (String.eqb_spec k' k) as [->|Hne]; [done |]. intros Hnone.
    by rewrite IH.
Qed.

(** Writing a property twice is writing it once, with the second value. *)
Lemma set_set_prop k v1 v2 props :
  JS.set_prop k v2 (JS.set_prop k v1 props) = JS.set_prop k v2 props.
Proof.
  assert (Hhas : JS.has_prop k (JS.set_prop k v1 props) = true).
  { unfold JS.has_prop. by rewrite JSFacts.get_set_prop_eq. }
  unfold JS.set_prop at 1. rewrite Hhas. unfold JS.set_prop.
  destruct (JS.has_prop k props) eqn:Hprops.
  - apply replace_replace_prop.
  - assert (Hnone : JS.get_prop k props = None).
    { unfold JS.has_prop in Hprops. by destruct (JS.get_prop k props). }
    destruct (JS.array_index k) as [n|].
    + by apply replace_insert_index.
    + by apply replace_appended.
Qed.

Lemma getLocalStorageKey_inj (a b : string) :
  getLocalStorageKey a = getLocalStorageKey b → a = b.
Proof.
  unfold getLocalStorageKey.
  generalize "frigade-multiInputStepTypeData-"%string.
  intros prefix. induction prefix as [|c prefix IH]; simpl; [done |].
  intros [= H]. by apply IH.
Qed.

Section Interactions.

Variable JSON_stringify : JS.Value → string.
Variable stepId : string.

Abbreviation step := (step JSON_stringify stepId).
Abbreviation steps := (steps JSON_stringify stepId).
Abbreviation key := (getLocalStorageKey stepId).
Abbreviation written_through := (written_through JSON_stringify stepId).

Lemma steps_snoc st evs ev : steps st (evs ++ [ev]) = step (steps st evs) ev.
Proof. unfold MultiInputStepType.steps. by rewrite fold_left_app. Qed.

Lemma steps_cons st ev evs : steps st (ev :: evs) = steps (step st ev) evs.
Proof. reflexivity. Qed.

(** **** Write-through *)

Lemma save_written_through st input data :
  written_through (step st (SaveInputData input data)).
Proof.
  split; simpl.
  - by rewrite last_snoc.
  - intros store. destruct (localStorage st) as [store0|]; [| done].
    intros [= <-]. by rewrite lookup_insert_eq.
Qed.

Lemma step_written_through st ev :
  written_through st → written_through (step st ev).
Proof.
  destruct ev as [input data | input errors].
  - intros _. apply save_written_through.
  - done.
Qed.

Lemma steps_written_through evs : ∀ st,
  written_through st → written_through (steps st evs).
Proof.
  induction evs as [|ev evs IH]; intros st Hst; [done |].
  rewrite steps_cons. by apply IH, step_written_through.
Qed.


(** **** The storage outside the key of the step *)

Lemma step_storage_frame st ev :
  match localStorage st with
  | Some store =>
      ∃ store', localStorage (step st ev) = Some store'
                ∧ ∀ k, k ≠ key → store' !! k = store !! k
  | None => localStorage (step st ev) = None
  end.
Proof.
  destruct ev as [input data | input errors]; simpl;
    destruct (localStorage st) as [store|]; try done.
  - eexists. split; [done |]. intros k Hk. by rewrite lookup_insert_ne.
  - by exists store.
Qed.

Lemma steps_storage_frame evs : ∀ st,
  match localStorage st with
  | Some store =>
      ∃ store', localStorage (steps st evs) = Some store'
                ∧ ∀ k, k ≠ key → store' !! k = store !! k
  | None => localStorage (steps st evs) = None
  end.
Proof.
  induction evs as [|ev evs IH]; intros st.
  - simpl. destruct (localStorage st) as [store|]; [by exists store | done].
  - rewrite steps_cons.
    pose proof (step_storage_frame st ev) as Hstep.
    pose proof (IH (step st ev)) as Hrest.
    destruct (localStorage st) as [store|].
    + destruct Hstep as (store1 & Hstore1 & Hframe1). rewrite Hstore1 in Hrest.
      destruct Hrest as (store2 & Hstore2 & Hframe2).
      exists store2. split; [done |]. intros k Hk.
      by rewrite Hframe2, Hframe1.
    + by rewrite Hstep in Hrest.
Qed.

(** X2.  Whatever the interactions with a step, its component writes to
    the storage under the key of the step only: every other entry keeps
    its value, in particular the entry of any step with another
    identifier, since distinct identifiers give distinct keys; and a
    window without storage stays without. *)
Theorem storage_of_other_steps_untouched (st : State) (evs : list Event) :
  (∀ store other,
     localStorage st = Some store → other ≠ stepId →
     ∃ store',
       localStorage (steps st evs) = Some store'
       ∧ store' !! getLocalStorageKey other = store !! getLocalStorageKey other
       ∧ ∀ k, k ≠ key → store' !! k = store !! k)
  ∧ (localStorage st = None → localStorage (steps st evs) = None).
Proof.
  pose proof (steps_storage_frame evs st) as Hframe. split.
  - intros store other Hstore Hother. rewrite Hstore in Hframe.
    destruct Hframe as (store' & Hstore' & Hkeep).
    exists store'. split; [done |]. split; [| done].
    apply Hkeep. intros Heq. by apply Hother, getLocalStorageKey_inj.
  - intros Hnone. by rewrite Hnone in Hframe.
Qed.

(** X3.  A field that submits a second value overwrites the first in
    place: the aggregate, with the order of its properties, and the
    storage are what they would be had the field submitted the second
    value only; what differs is that [onSaveData] was called twice. *)
Theorem resubmission_overwrites_in_place (st : State)
    (input : FormInputType.t) (first second : JS.Value) :
  let twice := steps st [SaveInputData input first; SaveInputData input second] in
  let once := steps st [SaveInputData input second] in
  allFormData twice = allFormData once
  ∧ localStorage twice = localStorage once
  ∧ errors_part twice = errors_part once
  ∧ length (onSaveData twice) = S (length (onSaveData once)).
Proof.
  cbv zeta. simpl. rewrite set_set_prop.
  split; [done |]. split; [| split; [done |]].
  - destruct (localStorage st) as [store|]; [| done].
    by rewrite insert_insert_eq.
  - rewrite !length_app. simpl. lia.
Qed.

(** **** The aggregate after a sequence of interactions *)

Lemma latest_save_snoc name evs ev :
  latest_save name (evs ++ [ev])
  = match ev with
    | SaveInputData input data =>
        if FormInputType.id input =? name then Some data
        else latest_save name evs
    | ValidationErrors _ _ => latest_save name evs
    end.
Proof. unfold latest_save. rewrite fold_left_app. by destruct ev. Qed.

Abbreviation interact := (interact JSON_stringify stepId).
Abbreviation interactions := (interactions JSON_stringify stepId).
Abbreviation captures_current := (captures_current JSON_stringify stepId).

(** One call: a submission sets its own field on top of the captured
    aggregate, a report of errors leaves the aggregate alone. *)
Lemma own_property_handle (captured : JS.Value) (st : State) (ev : Event)
    (name : string) :
  own_property (allFormData (handle JSON_stringify stepId captured st ev)) name
  = match ev with
    | SaveInputData input data =>
        if FormInputType.id input =? name then Some data
        else own_property captured name
    | ValidationErrors _ _ => own_property (allFormData st) name
    end.
Proof.
  destruct ev as [input data | input errors]; [| done].
  unfold own_property. simpl.
  destruct (String.eqb_spec (FormInputType.id input) name) as [->|Hne].
  - apply JSFacts.get_set_prop_eq.
  - by rewrite JSFacts.get_set_prop_ne.
Qed.

Lemma interactions_cons m i acts :
  interactions m (i :: acts) = interactions (interact m i) acts.
Proof. reflexivity. Qed.

Lemma latest_save_from name evs : ∀ acc,
  fold_left
    (λ acc ev,
       match ev with
       | SaveInputData input data =>
           if FormInputType.id input =? name then Some data else acc
       | ValidationErrors _ _ => acc
       end) evs acc
  = match latest_save name evs with
    | Some data => Some data
    | None => acc
    end.
Proof.
  induction evs as [|ev evs IH] using rev_ind; intros acc; [done |].
  rewrite latest_save_snoc, fold_left_app. simpl.
  destruct ev as [input data | input errors]; [| apply IH].
  destruct (FormInputType.id input =? name)%string; [done | apply IH].
Qed.

Lemma latest_save_cons name ev evs :
  latest_save name (ev :: evs)
  = match latest_save name evs with
    | Some data => Some data
    | None => latest_save name [ev]
    end.
Proof. unfold latest_save at 1. simpl. apply latest_save_from. Qed.

Lemma with_renders_captures_current evs : ∀ m,
  captures_current m (with_renders evs).
Proof.
  induction evs as [|ev evs IH]; intros m; [done |].
  simpl. split; [done |]. split; [by destruct ev | apply IH].
Qed.

Lemma with_renders_steps evs : ∀ m,
  cells (interactions m (with_renders evs)) = steps (cells m) evs.
Proof.
  induction evs as [|ev evs IH]; intros m; [done |].
  simpl with_renders. rewrite !interactions_cons, IH. reflexivity.
Qed.

(** X4.  When every submission goes through handlers that captured the
    aggregate as it is at the call, the aggregate after any sequence of
    calls and renders holds, for every field name, the value submitted
    last under that name, and for a name under which nothing was submitted
    what it held before.  The condition holds of every sequence of calls
    in which React renders before each call, and such a sequence is the
    sequence of steps of its calls. *)
Theorem aggregate_holds_latest_values (m : Mounted)
    (acts : list Interaction) (name : string) :
  (captures_current m acts →
   own_property (allFormData (cells (interactions m acts))) name
   = match latest_save name (calls acts) with
     | Some data => Some data
     | None => own_property (allFormData (cells m)) name
     end)
  ∧ ∀ evs,
      captures_current m (with_renders evs)
      ∧ calls (with_renders evs) = evs
      ∧ cells (interactions m (with_renders evs)) = steps (cells m) evs.
Proof.
  split.
  - revert m. induction acts as [|i acts IH]; intros m Hfresh; [done |].
    destruct Hfresh as [Hcall Hrest].
    rewrite interactions_cons, (IH _ Hrest).
    destruct i as [ev|]; [| done].
    cbn [calls omap list_omap]. fold (calls acts).
    rewrite latest_save_cons.
    destruct (latest_save name (calls acts)); [done |].
    cbn [MultiInputStepType.interact cells]. rewrite own_property_handle.
    destruct ev as [input data | input errors]; [| done].
    unfold latest_save. simpl. rewrite Hcall.
    by destruct (FormInputType.id input =? name)%string.
  - intros evs. split; [apply with_renders_captures_current |].
    split; [| apply with_renders_steps].
    induction evs as [|ev evs IH]; [done |]. simpl. by f_equal.
Qed.

(** **** Submissions and error reports do not interfere *)

Lemma step_data_part st1 st2 ev :
  data_part st1 = data_part st2 → data_part (step st1 ev) = data_part (step st2 ev).
Proof.
  unfold data_part. intros [= Hdata Hstorage Hsave].
  destruct ev as [input data | input errors]; simpl; by rewrite Hdata, Hstorage, Hsave.
Qed.

Lemma step_errors_part st1 st2 ev :
  errors_part st1 = errors_part st2 →
  errors_part (step st1 ev) = errors_part (step st2 ev).
Proof.
  unfold errors_part. intros [= Herrors Hcontinue].
  destruct ev as [input data | input errors]; simpl; by rewrite Herrors, ?Hcontinue.
Qed.

Lemma steps_parts evs : ∀ st1 st2,
  (data_part st1 = data_part st2 →
   data_part (steps st1 evs) = data_part (steps st2 (List.filter is_save evs)))
  ∧ (errors_part st1 = errors_part st2 →
     errors_part (steps st1 evs)
     = errors_part (steps st2 (List.filter (λ ev, negb (is_save ev)) evs))).
Proof.
  induction evs as [|ev evs IH]; intros st1 st2; [done |].
  rewrite steps_cons. split; intros Hpart.
  - destruct ev as [input data | input errors]; cbn [List.filter is_save negb].
    + rewrite steps_cons. apply IH. by apply step_data_part.
    + apply IH. by rewrite <- Hpart.
  - destruct ev as [input data | input errors]; cbn [List.filter is_save negb].
    + apply IH. by rewrite <- Hpart.
    + rewrite steps_cons. apply IH. by apply step_errors_part.
Qed.

(** X5.  Submissions and error reports do not interfere.  The aggregate,
    the storage and the calls of [onSaveData] after a sequence of
    interactions are those of its submissions alone; the error list and
    the published [canContinue] are those of its reports alone; and
    [onSaveData] is called once for each submission, with or without a
    storage. *)
Theorem submissions_and_reports_independent (st : State) (evs : list Event) :
  data_part (steps st evs) = data_part (steps st (List.filter is_save evs))
  ∧ errors_part (steps st evs)
    = errors_part (steps st (List.filter (λ ev, negb (is_save ev)) evs))
  ∧ length (onSaveData (steps st evs))
    = length (onSaveData st) + length (List.filter is_save evs).
Proof.
  destruct (steps_parts evs st st) as [Hdata Herrors].
  split; [by apply Hdata |]. split; [by apply Herrors |].
  clear. revert st. induction evs as [|ev evs IH]; intros st.
  - simpl. lia.
  - rewrite steps_cons, IH.
    destruct ev as [input data | input errors]; simpl; [| done].
    rewrite length_app. simpl. lia.
Qed.

End Interactions.

(** Field A submits, React renders, field B submits, field A submits
    again without a render in between but after a report of errors only:
    the aggregate holds the latest values of both. *)
Lemma aggregate_holds_latest_values_witness :
  let acts := [Call (SaveInputData field_A (JS.VString "Ada"));
               Render;
               Call (SaveInputData field_B (JS.VString "Lovelace"));
               Render;
               Call (ValidationErrors field_A []);
               Call (SaveInputData field_A (JS.VString "Augusta"))] in
  let m := MultiInputStepType.interactions JSON_stringify_sample "step-1"
             (rendered empty_step) acts in
  own_property (allFormData (cells m)) "A" = Some (JS.VString "Augusta")
  ∧ own_property (allFormData (cells m)) "B" = Some (JS.VString "Lovelace").
Proof.
  intros acts m.
  assert (Hfresh : MultiInputStepType.captures_current JSON_stringify_sample
                     "step-1" (rendered empty_step) acts).
  { simpl. tauto. }
  split.
  - exact (proj1 (aggregate_holds_latest_values JSON_stringify_sample
                    "step-1" (rendered empty_step) acts "A") Hfresh).
  - exact (proj1 (aggregate_holds_latest_values JSON_stringify_sample
                    "step-1" (rendered empty_step) acts "B") Hfresh).
Defined.

(** **** Continuation and the latest reports *)

Section LatestReports.

Variable JSON_parse : string → option JS.Value.
Variable JSON_stringify : JS.Value → string.
Variable stepId : string.

Abbreviation step := (step JSON_stringify stepId).
Abbreviation steps := (steps JSON_stringify stepId).

Lemma latest_report_snoc name evs ev :
  latest_report name (evs ++ [ev])
  = match ev with
    | ValidationErrors input errors =>
        if FormInputType.id input =? name then Some errors
        else latest_report name evs
    | SaveInputData _ _ => latest_report name evs
    end.
Proof. unfold latest_report. rewrite fold_left_app. by destruct ev. Qed.

Lemma has_error_of_app name errors more :
  has_error_of name (errors ++ more)
  ↔ has_error_of name errors ∨ has_error_of name more.
Proof.
  unfold has_error_of. split.
  - intros (error & Hin & Hid). apply elem_of_app in Hin as [Hin | Hin];
      [left | right]; by exists error.
  - intros [(error & Hin & Hid) | (error & Hin & Hid)]; exists error;
      (split; [apply elem_of_app; tauto | done]).
Qed.

Lemma has_error_of_cleared name input errors :
  has_error_of name (errors_updater input [] errors)
  ↔ has_error_of name errors ∧ FormInputType.id input ≠ name.
Proof.
  unfold has_error_of, errors_updater. simpl. split.
  - intros (error & Hin & Hid).
    apply list_elem_of_In, filter_In in Hin as [Hin Hkeep].
    apply negb_true_iff in Hkeep.
    destruct (String.eqb_spec (FormValidationError.id error)
                (FormInputType.id input)) as [|Hne]; [done |].
    split; [exists error; split; [by apply list_elem_of_In | done] |].
    congruence.
  - intros [(error & Hin & Hid) Hne]. exists error. split; [| done].
    apply list_elem_of_In, filter_In. split; [by apply list_elem_of_In |].
    apply negb_true_iff.
    destruct (String.eqb_spec (FormValidationError.id error)
                (FormInputType.id input)); [congruence | done].
Qed.

Lemma errors_after_reports (st : State) (evs : list Event) (name : string) :
  Forall reports_own_errors evs →
  has_error_of name (formValidationErrors (steps st evs))
  ↔ match latest_report name evs with
    | Some errors => errors ≠ []
    | None => has_error_of name (formValidationErrors st)
    end.
Proof.
  induction evs as [|ev evs IH] using rev_ind; [done |].
  intros Hown. apply Forall_app in Hown as [Hevs Hev].
  apply Forall_cons in Hev as [Hev _]. specialize (IH Hevs).
  rewrite steps_snoc, latest_report_snoc.
  destruct ev as [input data | input errors]; [exact IH |].
  cbn [MultiInputStepType.step MultiInputStepType.handle
       setFormValidationErrors canContinue_effect formValidationErrors].
  simpl in Hev.
  destruct errors as [|error errors].
  - rewrite has_error_of_cleared, IH.
    destruct (String.eqb_spec (FormInputType.id input) name) as [Heq|Hne];
      [| tauto].
    split; [by intros [_ ?] | done].
  - unfold errors_updater. cbn [length Nat.eqb].
    rewrite has_error_of_app, IH.
    destruct (String.eqb_spec (FormInputType.id input) name) as [Heq|Hne].
    + split; [done | intros _; right].
      exists error. split; [left |].
      apply Forall_cons in Hev as [Hid _]. congruence.
    + split; [| tauto]. intros [Hprev | (e & Hin & Hid)]; [done |].
      rewrite Forall_forall in Hev. specialize (Hev e Hin). congruence.
Qed.

Lemma no_errors_iff (errors : list FormValidationError.t) :
  errors = [] ↔ ∀ name, ¬ has_error_of name errors.
Proof.
  split.
  - intros -> name (error & Hin & _). by apply elem_of_nil in Hin.
  - intros Hnone. destruct errors as [|error errors]; [done |].
    destruct (Hnone (FormValidationError.id error)).
    exists error. split; [left | done].
Qed.

(** X6.  When every field reports its errors under its own identifier,
    the step mounted and interacted with lets the user continue exactly
    when the latest report of every field that reported is empty, however
    many errors the earlier reports piled up in the list. *)
Theorem canContinue_follows_latest_reports (storage : Storage) (parent : bool)
    (st0 : State) (evs : list Event) :
  mount JSON_parse stepId storage parent = Normal st0 →
  Forall reports_own_errors evs →
  canContinue (steps st0 evs) = true
  ↔ ∀ name, latest_report name evs = None ∨ latest_report name evs = Some [].
Proof.
  intros Hmount Hown.
  assert (Hnone : formValidationErrors st0 = []).
  { revert Hmount. unfold mount, initial.
    destruct (loadFromLocalStorage _ _ _); [| done]. by intros [= <-]. }
  rewrite (MultiInputStepTypeSpec.continue_inv_iff (steps st0 evs))
    by (apply MultiInputStepTypeSpec.steps_continue_inv;
        exact (MultiInputStepTypeSpec.mount_continue_inv _ _ _ _ _ Hmount)).
  rewrite no_errors_iff.
  split.
  - intros Hall name. specialize (Hall name).
    rewrite (errors_after_reports st0 evs name Hown) in Hall.
    destruct (latest_report name evs) as [[|e es]|];
      [by right | by destruct Hall | by left].
  - intros Hall name. rewrite (errors_after_reports st0 evs name Hown).
    destruct (Hall name) as [-> | ->]; [| by intros ?].
    rewrite Hnone. intros (e & Hin & _). by apply elem_of_nil in Hin.
Qed.

End LatestReports.

(** Field A reports Required, then Too short, then nothing while field B
    reports nothing: the user can continue, although A reported twice. *)
Lemma canContinue_follows_latest_reports_witness :
  let evs := [ValidationErrors field_A [required_A];
              ValidationErrors field_B [];
              ValidationErrors field_A [too_short_A];
              ValidationErrors field_A []] in
  ∃ st0,
    mount JSON_parse_sample "step-1" None false = Normal st0
    ∧ canContinue (steps JSON_stringify_sample "step-1" st0 evs) = true
    ∧ canContinue
        (steps JSON_stringify_sample "step-1" st0 (take 3 evs)) = false.
Proof.
  intros evs. eexists. split; [reflexivity |]. split.
  - apply (canContinue_follows_latest_reports JSON_parse_sample
             JSON_stringify_sample "step-1" None false _ evs eq_refl).
    + repeat constructor.
    + intros name. unfold latest_report. cbn [fold_left evs FormInputType.id field_A field_B].
      destruct ("A" =? name)%string, ("B" =? name)%string; auto.
  - reflexivity.
Defined.


(** Step-1 leaves the entry that step-2 wrote alone. *)
Lemma storage_of_other_steps_untouched_witness :
  let before :=
    {| allFormData := JS.VObject []; formValidationErrors := [];
       canContinue := true;
       localStorage :=
         Some {[ getLocalStorageKey "step-2" := "{}"%string ]};
       onSaveData := [] |} in
  ∃ store,
    localStorage
      (steps JSON_stringify_sample "step-1" before
         [SaveInputData field_A (JS.VString "Ada")]) = Some store
    ∧ store !! getLocalStorageKey "step-2" = Some "{}"%string.
Proof.
  intros before.
  destruct (storage_of_other_steps_untouched JSON_stringify_sample "step-1"
              before [SaveInputData field_A (JS.VString "Ada")])
    as [Hother _].
  destruct (Hother _ "step-2"%string eq_refl ltac:(discriminate))
    as (store & Hstore & Hkept & _).
  exists store. split; [exact Hstore |].
  rewrite Hkept. apply lookup_singleton_eq.
Defined.

(** **** Rendering the fields *)

Section Rendering.

Variable Renderer : Type.
Variables TextField MultipleChoice MultipleChoiceList : Renderer.
Variable inherited : string → option Renderer.
Variable Builtin : Type.
Variable builtin_member : JS.Value → string → option Builtin.
Variable JSON_stringify : JS.Value → string.
Variable stepId : string.

Abbreviation interactions := (interactions JSON_stringify stepId).
Abbreviation captures_current := (captures_current JSON_stringify stepId).
Abbreviation member_of := (member_of Builtin builtin_member).
Abbreviation key := (key Renderer Builtin).
Abbreviation DEFAULT_INPUT_TYPES :=
  (DEFAULT_INPUT_TYPES Renderer TextField MultipleChoice MultipleChoiceList).
Abbreviation mergedInputTypes :=
  (mergedInputTypes Renderer TextField MultipleChoice MultipleChoiceList).
Abbreviation renderer_of := (renderer_of Renderer inherited).
Abbreviation render_field :=
  (render_field Renderer inherited Builtin builtin_member).
Abbreviation render_fields :=
  (render_fields Renderer TextField MultipleChoice MultipleChoiceList inherited
     Builtin builtin_member).

Lemma default_types (type : string) :
  is_Some (DEFAULT_INPUT_TYPES !! type)
  ↔ type = "text"%string ∨ type = "multipleChoice"%string
    ∨ type = "multipleChoiceList"%string.
Proof.
  unfold MultiInputStepType.DEFAULT_INPUT_TYPES.
  rewrite !lookup_insert_is_Some, lookup_singleton_is_Some. split.
  - intuition congruence.
  - intros [-> | [-> | ->]];
      [by left | right | right]; (split; [done |]);
      [by left | right]; by split.
Qed.

Lemma rendered_keys merged allFormData inputs :
  key <$> omap id (map (render_field merged allFormData) inputs)
  = FormInputType.id <$> List.filter (resolves inherited merged) inputs.
Proof.
  induction inputs as [|input inputs IH]; [done |].
  cbn [map omap List.filter]. unfold resolves at 1.
  unfold MultiInputStepType.render_field at 1.
  destruct (renderer_of merged (FormInputType.type input)); simpl;
    [f_equal |]; exact IH.
Qed.

(** X7.  The registry of input types and what it renders.  A renderer
    that the caller registers under a name is the one used for that name,
    also when the name is one of the three built-in types; the built-in
    types always have a renderer; an input whose type is neither
    registered, nor built in, nor a name that plain objects inherit gets no
    element.  There is one slot for each configured input, none when the
    step configures no list, and the keys of the elements are the
    identifiers of the inputs whose type resolves, in the configured
    order. *)
Theorem registry_decides_rendered_fields
    (customFormElements : option (gmap string Renderer)) (st : State) :
  let merged := mergedInputTypes customFormElements in
  (∀ custom type r,
     customFormElements = Some custom → custom !! type = Some r →
     renderer_of merged type = Some r)
  ∧ (∀ type, is_Some (DEFAULT_INPUT_TYPES !! type) →
             is_Some (renderer_of merged type))
  ∧ (∀ input,
       default ∅ customFormElements !! FormInputType.type input = None →
       DEFAULT_INPUT_TYPES !! FormInputType.type input = None →
       inherited (FormInputType.type input) = None →
       render_field merged (allFormData st) input = None)
  ∧ render_fields customFormElements None st = []
  ∧ ∀ inputs,
      length (render_fields customFormElements (Some inputs) st)
      = length inputs
      ∧ key <$> omap id (render_fields customFormElements (Some inputs) st)
        = FormInputType.id <$> List.filter (resolves inherited merged) inputs.
Proof.
  cbv zeta. unfold MultiInputStepType.mergedInputTypes.
  split; [| split; [| split; [| split]]].
  - intros custom type r -> Hcustom.
    unfold MultiInputStepType.renderer_of. simpl.
    by rewrite (lookup_union_Some_l _ _ _ _ Hcustom).
  - intros type [r Hdefault]. unfold MultiInputStepType.renderer_of.
    rewrite lookup_union, Hdefault.
    by destruct (default ∅ customFormElements !! type).
  - intros input Hcustom Hdefault Hinherited.
    unfold MultiInputStepType.render_field, MultiInputStepType.renderer_of.
    by rewrite lookup_union, Hcustom, Hdefault, Hinherited.
  - reflexivity.
  - intros inputs. split; [apply length_map | apply rendered_keys].
Qed.

(** X8.  A field element rendered after a sequence of calls and renders
    has its input as [formInput], the identifier of the input as key, and
    as [inputData] the member of the current aggregate under that
    identifier.  When every submission went through handlers that had
    captured the aggregate as it was at the call, that member is the value
    submitted last under the identifier, and when nothing was submitted
    under it, the own property that the aggregate held under it before,
    if it held one. *)
Theorem fields_receive_latest_values
    (customFormElements : option (gmap string Renderer))
    (inputs : list FormInputType.t) (m : Mounted) (acts : list Interaction)
    (i : nat) (field : Field Renderer Builtin) :
  render_fields customFormElements (Some inputs) (cells (interactions m acts))
    !! i = Some (Some field) →
  ∃ input,
    inputs !! i = Some input
    ∧ formInput Renderer Builtin field = input
    ∧ key field = FormInputType.id input
    ∧ inputData Renderer Builtin field
      = member_of (allFormData (cells (interactions m acts)))
          (FormInputType.id input)
    ∧ (captures_current m acts →
       match latest_save (FormInputType.id input) (calls acts) with
       | Some data => inputData Renderer Builtin field = own_value Builtin data
       | None =>
           ∀ v, own_property (allFormData (cells m)) (FormInputType.id input)
                = Some v →
                inputData Renderer Builtin field = own_value Builtin v
       end).
Proof.
  unfold MultiInputStepType.render_fields. rewrite list_lookup_fmap.
  destruct (inputs !! i) as [input|]; [| done]. simpl.
  unfold MultiInputStepType.render_field.
  destruct (renderer_of _ _) as [r|]; [| done].
  intros [= <-]. exists input. simpl.
  split; [done |]. split; [done |]. split; [done |]. split; [done |].
  intros Hfresh. unfold MultiInputStepType.member_of.
  assert (Hown :
    own_property (allFormData (cells (interactions m acts)))
      (FormInputType.id input)
    = match latest_save (FormInputType.id input) (calls acts) with
      | Some data => Some data
      | None => own_property (allFormData (cells m)) (FormInputType.id input)
      end).
  { generalize (FormInputType.id input). intros name. clear -Hfresh.
    revert m Hfresh. induction acts as [|a acts IH]; intros m Hfresh; [done |].
    destruct Hfresh as [Hcall Hrest].
    rewrite interactions_cons, (IH _ Hrest).
    destruct a as [ev|]; [| done].
    cbn [calls omap list_omap]. fold (calls acts).
    rewrite latest_save_cons.
    destruct (latest_save name (calls acts)); [done |].
    cbn [MultiInputStepType.interact cells]. rewrite own_property_handle.
    destruct ev as [input' data | input' errors]; [| done].
    unfold latest_save. simpl. rewrite Hcall.
    by destruct (FormInputType.id input' =? name)%string. }
  rewrite Hown.
  destruct (latest_save _ _) as [data|]; [done |].
  by intros v ->.
Qed.

End Rendering.

(** A caller registers a renderer of its own for text: fields A and B use
    it, field C of the unknown type date gets no element. *)
Lemma registry_decides_rendered_fields_witness :
  let custom : gmap string string := {[ "text"%string := "MyTextField"%string ]} in
  let merged :=
    mergedInputTypes string "TextField" "MultipleChoice" "MultipleChoiceList"
      (Some custom) in
  let fields :=
    render_fields string "TextField" "MultipleChoice" "MultipleChoiceList"
      sample_inherited string sample_builtin_member (Some custom)
      (Some [field_A; field_C; field_B]) empty_step in
  renderer_of string sample_inherited merged "text"
  = Some "MyTextField"%string
  ∧ render_field string sample_inherited string sample_builtin_member
      merged (allFormData empty_step) field_C
    = None
  ∧ length fields = 3.
Proof.
  intros custom merged fields.
  destruct (registry_decides_rendered_fields string "TextField"
              "MultipleChoice" "MultipleChoiceList" sample_inherited
              string sample_builtin_member (Some custom) empty_step)
    as (Hcustom & _ & Hunknown & _ & Hslots).
  split; [| split].
  - apply (Hcustom custom "text"%string "MyTextField"%string eq_refl).
    apply lookup_singleton_eq.
  - apply (Hunknown field_C).
    + by apply lookup_singleton_ne.
    + unfold DEFAULT_INPUT_TYPES. by rewrite !lookup_insert_ne, lookup_singleton_ne.
    + reflexivity.
  - apply (Hslots [field_A; field_C; field_B]).
Defined.

(** Field A submitted Ada and React rendered: the element of A is handed
    Ada, the element of B, for which nothing is held, what the member
    expression finds. *)
Lemma fields_receive_latest_values_witness :
  let acts := [Call (SaveInputData field_A (JS.VString "Ada")); Render] in
  let rendered_fields :=
    render_fields string "TextField" "MultipleChoice" "MultipleChoiceList"
      sample_inherited string sample_builtin_member None
      (Some [field_A; field_B])
      (cells (interactions JSON_stringify_sample "step-1"
                (rendered empty_step) acts)) in
  ∃ field,
    rendered_fields !! 0 = Some (Some field)
    ∧ inputData string string field = own_value string (JS.VString "Ada").
Proof.
  intros acts rendered_fields.
  assert (Hfield : ∃ field, rendered_fields !! 0 = Some (Some field)).
  { unfold rendered_fields, render_fields. rewrite list_lookup_fmap. simpl.
    unfold render_field, renderer_of, mergedInputTypes, DEFAULT_INPUT_TYPES.
    simpl. rewrite lookup_union_r by apply lookup_empty.
    rewrite lookup_insert_eq. by eexists. }
  destruct Hfield as [field Hfield]. exists field. split; [exact Hfield |].
  destruct (fields_receive_latest_values string "TextField" "MultipleChoice"
              "MultipleChoiceList" sample_inherited string
              sample_builtin_member JSON_stringify_sample
              "step-1" None [field_A; field_B] (rendered empty_step)
              acts 0 field Hfield)
    as (input & Hinput & _ & _ & _ & Hdata).
  injection Hinput as <-. apply Hdata. simpl. tauto.
Defined.

End MultiInputStepTypeMore.

(** ** FormFooter: the buttons it offers *)

Module FormFooterSpec.
Local Open Scope list_scope.
Local Open Scope nat_scope.

Lemma titled_nonempty (t : option string) (s : string) :
  FormFooter.titled t = Some s → t = Some s ∧ s ≠ ""%string.
Proof.
  unfold FormFooter.titled. destruct t as [s'|]; [| done].
  destruct (JS.truthy_string s') eqn:Htruthy; [| done].
  intros [= <-]. split; [done |]. by apply JSFacts.truthy_string_true.
Qed.

Lemma titled_Some (t : option string) (s : string) :
  t = Some s → s ≠ ""%string → FormFooter.titled t = Some s.
Proof.
  intros -> Hs. unfold FormFooter.titled.
  by rewrite (proj2 (JSFacts.truthy_string_true s) Hs).
Qed.

Lemma elem_of_option_list {A} (x : A) (mx : option A) :
  x ∈ option_list mx ↔ mx = Some x.
Proof.
  destruct mx as [y|]; simpl.
  - rewrite list_elem_of_singleton. split; congruence.
  - split; [by intros ?%elem_of_nil | done].
Qed.

Lemma elem_of_buttons (r : FormFooter.Rendered) (b : FormFooter.Button) :
  b ∈ FormFooter.buttons r
  ↔ FormFooter.back r = Some b ∨ FormFooter.secondaryButton r = Some b
    ∨ FormFooter.primaryButton r = Some b.
Proof.
  unfold FormFooter.buttons. by rewrite !elem_of_app, !elem_of_option_list.
Qed.

Lemma back_rendered (p : FormFooter.Props) (b : FormFooter.Button) :
  FormFooter.back (FormFooter.render p) = Some b
  ↔ (1 < FormFooter.steps_length p ∧ FormFooter.selectedStep p ≠ 0
     ∧ FormFooter.allowBackNavigation p = true)
    ∧ b = {| FormFooter.title := "←"; FormFooter.onClick := FormFooter.onBack;
             FormFooter.secondary := true; FormFooter.disabled := false;
             FormFooter.withMargin := false;
             FormFooter.type := FormFooter.buttonType p |}.
Proof.
  simpl.
  destruct (Nat.ltb_spec 1 (FormFooter.steps_length p));
    destruct (Nat.eqb_spec (FormFooter.selectedStep p) 0);
    destruct (FormFooter.allowBackNavigation p); simpl;
    split; try (intros [= <-]; by split); try done;
    try (intros [(? & ? & ?) ->]; (done || lia)).
Qed.

Lemma secondary_rendered (p : FormFooter.Props) (b : FormFooter.Button) :
  FormFooter.secondaryButton (FormFooter.render p) = Some b
  ↔ ∃ s, FormFooter.secondaryButtonTitle p = Some s ∧ s ≠ ""%string
         ∧ b = {| FormFooter.title := s;
                  FormFooter.onClick := FormFooter.onSecondaryClick;
                  FormFooter.secondary := true; FormFooter.disabled := false;
                  FormFooter.withMargin := false;
                  FormFooter.type := FormFooter.buttonType p |}.
Proof.
  simpl. split.
  - destruct (FormFooter.titled _) as [s|] eqn:Htitled; [| done].
    apply titled_nonempty in Htitled as [Htitle Hs].
    intros [= <-]. by exists s.
  - intros (s & Htitle & Hs & ->). by rewrite (titled_Some _ s Htitle Hs).
Qed.

Lemma primary_rendered (p : FormFooter.Props) (b : FormFooter.Button) :
  FormFooter.primaryButton (FormFooter.render p) = Some b
  ↔ ∃ s, FormFooter.primaryButtonTitle p = Some s ∧ s ≠ ""%string
         ∧ b = {| FormFooter.title := s;
                  FormFooter.onClick := FormFooter.onPrimaryClick;
                  FormFooter.secondary := false;
                  FormFooter.disabled := negb (FormFooter.canContinue p);
                  FormFooter.withMargin := false;
                  FormFooter.type := FormFooter.buttonType p |}.
Proof.
  simpl. split.
  - destruct (FormFooter.titled _) as [s|] eqn:Htitled; [| done].
    apply titled_nonempty in Htitled as [Htitle Hs].
    intros [= <-]. by exists s.
  - intros (s & Htitle & Hs & ->). by rewrite (titled_Some _ s Htitle Hs).
Qed.

Lemma footer_sublist (p : FormFooter.Props) :
  sublist (FormFooter.onClick <$> FormFooter.buttons (FormFooter.render p))
    [FormFooter.onBack; FormFooter.onSecondaryClick; FormFooter.onPrimaryClick].
Proof.
  unfold FormFooter.buttons, FormFooter.render. simpl.
  destruct (FormFooter.titled (FormFooter.secondaryButtonTitle p));
    destruct (FormFooter.titled (FormFooter.primaryButtonTitle p));
    destruct ((1 <? FormFooter.steps_length p)
              && negb (FormFooter.selectedStep p =? 0)
              && FormFooter.allowBackNavigation p);
    simpl; repeat constructor.
Qed.

(** X9.  The footer renders exactly the buttons its props call for, in the
    order back, secondary, primary.  The back button is there exactly when
    there is more than one step, the step is not the first and back
    navigation is allowed, so never on the first step or in a form of a
    single step.  The secondary, respectively primary, button is there
    exactly when the step has a non-empty title for it, which it shows: a
    missing or empty title gives no button.  Every button has the type
    inline when the form type is inline and full-width otherwise, none has
    a margin.  Only the primary button is ever disabled, and it is
    whenever the user cannot continue. *)
Theorem footer_buttons (p : FormFooter.Props) :
  let bs := FormFooter.buttons (FormFooter.render p) in
  sublist (FormFooter.onClick <$> bs)
    [FormFooter.onBack; FormFooter.onSecondaryClick; FormFooter.onPrimaryClick]
  ∧ (∀ b, b ∈ bs →
       FormFooter.type b
       = (if FormFooter.formType p =? "inline" then "inline" else "full-width")%string
       ∧ FormFooter.withMargin b = false
       ∧ FormFooter.title b ≠ ""%string
       ∧ (FormFooter.secondary b = true ↔ FormFooter.onClick b ≠ FormFooter.onPrimaryClick)
       ∧ FormFooter.disabled b
         = match FormFooter.onClick b with
           | FormFooter.onPrimaryClick => negb (FormFooter.canContinue p)
           | _ => false
           end)
  ∧ (FormFooter.selectedStep p = 0 ∨ (FormFooter.steps_length p ≤ 1)%nat →
     ∀ b, b ∈ bs → FormFooter.onClick b ≠ FormFooter.onBack)
  ∧ ((∃ b, b ∈ bs ∧ FormFooter.onClick b = FormFooter.onBack)
     ↔ 1 < FormFooter.steps_length p ∧ FormFooter.selectedStep p ≠ 0
       ∧ FormFooter.allowBackNavigation p = true)
  ∧ (∀ s, (∃ b, b ∈ bs ∧ FormFooter.onClick b = FormFooter.onSecondaryClick
                ∧ FormFooter.title b = s)
          ↔ FormFooter.secondaryButtonTitle p = Some s ∧ s ≠ ""%string)
  ∧ (∀ s, (∃ b, b ∈ bs ∧ FormFooter.onClick b = FormFooter.onPrimaryClick
                ∧ FormFooter.title b = s)
          ↔ FormFooter.primaryButtonTitle p = Some s ∧ s ≠ ""%string)
  ∧ (FormFooter.secondaryButtonTitle p = None
     ∨ FormFooter.secondaryButtonTitle p = Some ""%string →
     ∀ b, b ∈ bs → FormFooter.onClick b ≠ FormFooter.onSecondaryClick)
  ∧ (FormFooter.primaryButtonTitle p = None
     ∨ FormFooter.primaryButtonTitle p = Some ""%string →
     ∀ b, b ∈ bs → FormFooter.onClick b ≠ FormFooter.onPrimaryClick).
Proof.
  cbv zeta.
  assert (Hcases : ∀ b, b ∈ FormFooter.buttons (FormFooter.render p) →
    ((1 < FormFooter.steps_length p ∧ FormFooter.selectedStep p ≠ 0
      ∧ FormFooter.allowBackNavigation p = true)
     ∧ b = {| FormFooter.title := "←"; FormFooter.onClick := FormFooter.onBack;
              FormFooter.secondary := true; FormFooter.disabled := false;
              FormFooter.withMargin := false;
              FormFooter.type := FormFooter.buttonType p |})
    ∨ (∃ s, FormFooter.secondaryButtonTitle p = Some s ∧ s ≠ ""%string
            ∧ b = {| FormFooter.title := s;
                     FormFooter.onClick := FormFooter.onSecondaryClick;
                     FormFooter.secondary := true; FormFooter.disabled := false;
                     FormFooter.withMargin := false;
                     FormFooter.type := FormFooter.buttonType p |})
    ∨ (∃ s, FormFooter.primaryButtonTitle p = Some s ∧ s ≠ ""%string
            ∧ b = {| FormFooter.title := s;
                     FormFooter.onClick := FormFooter.onPrimaryClick;
                     FormFooter.secondary := false;
                     FormFooter.disabled := negb (FormFooter.canContinue p);
                     FormFooter.withMargin := false;
                     FormFooter.type := FormFooter.buttonType p |})).
  { intros b Hb. apply elem_of_buttons in Hb.
    by rewrite back_rendered, secondary_rendered, primary_rendered in Hb. }
  split; [apply footer_sublist |].
  split; [| split; [| split; [| split; [| split; [| split]]]]].
  - intros b Hb.
    destruct (Hcases b Hb) as [[_ ->] | [(s & _ & Hs & ->) | (s & _ & Hs & ->)]];
      simpl; unfold FormFooter.buttonType; repeat split; try done.
  - intros Hfirst b Hb.
    destruct (Hcases b Hb) as [[(? & ? & _) ->] | [(s & _ & _ & ->) | (s & _ & _ & ->)]];
      simpl; try done. lia.
  - split.
    + intros (b & Hb & Hclick).
      by destruct (Hcases b Hb)
        as [[? ->] | [(s & _ & _ & ->) | (s & _ & _ & ->)]].
    + intros Hback. eexists.
      split; [apply elem_of_buttons; left; by apply back_rendered | done].
  - intros s. split.
    + intros (b & Hb & Hclick & Htitle).
      destruct (Hcases b Hb)
        as [[? ->] | [(s' & ? & ? & ->) | (s' & _ & _ & ->)]];
        try done. simpl in Htitle. by subst.
    + intros [Htitle Hs]. eexists.
      split; [apply elem_of_buttons; right; left;
              apply secondary_rendered; by exists s | done].
  - intros s. split.
    + intros (b & Hb & Hclick & Htitle).
      destruct (Hcases b Hb)
        as [[? ->] | [(s' & _ & _ & ->) | (s' & ? & ? & ->)]];
        try done. simpl in Htitle. by subst.
    + intros [Htitle Hs]. eexists.
      split; [apply elem_of_buttons; right; right;
              apply primary_rendered; by exists s | done].
  - intros Hnone b Hb.
    destruct (Hcases b Hb)
      as [[? ->] | [(s' & Htitle & Hs & ->) | (s' & _ & _ & ->)]];
      simpl; try done.
    destruct Hnone as [Hnone | Hnone]; congruence.
  - intros Hnone b Hb.
    destruct (Hcases b Hb)
      as [[? ->] | [(s' & _ & _ & ->) | (s' & Htitle & Hs & ->)]];
      simpl; try done.
    destruct Hnone as [Hnone | Hnone]; congruence.
Qed.

(** The first step of a three-step modal form whose fields are not valid
    yet and whose secondary title is empty: a disabled Continue button
    alone, no way back and nothing to skip. *)
Lemma footer_buttons_witness :
  let p := {| FormFooter.primaryButtonTitle := Some "Continue"%string;
              FormFooter.secondaryButtonTitle := Some ""%string;
              FormFooter.canContinue := false;
              FormFooter.formType := "modal"%string;
              FormFooter.steps_length := 3;
              FormFooter.selectedStep := 0;
              FormFooter.allowBackNavigation := true |} in
  let bs := FormFooter.buttons (FormFooter.render p) in
  (∀ b, b ∈ bs → FormFooter.onClick b ≠ FormFooter.onBack)
  ∧ (∀ b, b ∈ bs → FormFooter.onClick b ≠ FormFooter.onSecondaryClick)
  ∧ (∃ b, b ∈ bs ∧ FormFooter.onClick b = FormFooter.onPrimaryClick
          ∧ FormFooter.title b = "Continue"%string)
  ∧ ∀ b, b ∈ bs →
      FormFooter.disabled b
      = match FormFooter.onClick b with
        | FormFooter.onPrimaryClick => true
        | _ => false
        end.
Proof.
  intros p bs.
  destruct (footer_buttons p)
    as (_ & Hall & Hfirst & _ & _ & Hprimary & Hsecond & _).
  split; [apply Hfirst; by left |].
  split; [apply Hsecond; by right |].
  split; [by apply Hprimary |].
  intros b Hb. by destruct (Hall b Hb) as (_ & _ & _ & _ & ->).
Defined.

End FormFooterSpec.

(** ** FrigadeNPSSurvey: what is rendered and what the handlers send *)

Module FrigadeNPSSurveyMore.
Import FrigadeNPSSurvey.
Local Open Scope list_scope.
Local Open Scope nat_scope.

Section Render.

Variable COMPLETED_FLOW : string.
Variable Flow : Type.
Variable props : Props.
Variable hooks : Hooks Flow.
Variable st : State.

Abbreviation render := (render COMPLETED_FLOW Flow props hooks st).
Abbreviation completed :=
  (getNumberOfStepsCompleted Flow hooks (flowId props)).
Abbreviation kept :=
  (shouldKeepCompletedFlowOpenDuringSession Flow hooks (flowId props)).
Abbreviation currentStep := (currentStep_of Flow props hooks).
Abbreviation guards_pass := (guards_pass COMPLETED_FLOW Flow props hooks).
Abbreviation some_guard_holds :=
  (some_guard_holds COMPLETED_FLOW Flow props hooks).

(** What the render function comes to once the guards are passed. *)
Lemma render_past_guards :
  guards_pass →
  render
  = match screen (completed =? 0)%nat currentStep (getScoreChooser props st),
          screen (completed =? 1)%nat currentStep (getScoreReason props st)
    with
    | Normal chooser, Normal reason =>
        Normal (Some {| dismiss_onClick :=
                          (await (markFlowCompleted (flowId props)) ;;
                           when (has_onDismiss props) (perform onDismiss))%handler;
                        scoreChooser := chooser;
                        scoreReason := reason |})
    | _, _ => Throw
    end.
Proof.
  intros ((Hloading & (flow & Hflow & Htarget) & Hmodals) & Hstatus & Hone).
  unfold FrigadeNPSSurvey.render.
  rewrite Hloading, Hflow, Htarget, Hmodals.
  rewrite bool_decide_eq_false_2 by done.
  destruct ((completed =? 1)%nat && negb kept) eqn:Hguard; [| done].
  apply andb_true_iff in Hguard as [Hcount Hkept].
  apply Nat.eqb_eq in Hcount. apply negb_true_iff in Hkept. by destruct Hone.
Qed.

Lemma guards_decide : guards_pass ∨ some_guard_holds.
Proof.
  unfold FrigadeNPSSurvey.guards_pass, FrigadeNPSSurvey.some_guard_holds,
    other_guards_pass.
  destruct (isLoading Flow hooks); [tauto |].
  destruct (getFlow Flow hooks (flowId props)) as [flow|] eqn:Hflow; [| tauto].
  destruct (targetingLogicShouldHideFlow Flow hooks flow) eqn:Htarget;
    [right; right; right; left; by exists flow |].
  destruct (decide (getFlowStatus Flow hooks (flowId props)
                    = Some COMPLETED_FLOW)); [tauto |].
  destruct (decide (completed = 1)) as [Hone|Hone];
    destruct kept eqn:Hkept; destruct (hasOpenModals Flow hooks);
    try tauto; left;
    (split; [split; [done | split; [by exists flow | done]] |]);
    (split; [done |]); intros [? ?]; congruence.
Qed.

Lemma guarded_renders_nothing : some_guard_holds → render = Normal None.
Proof.
  unfold FrigadeNPSSurvey.some_guard_holds, FrigadeNPSSurvey.render.
  intros Hguard.
  destruct (isLoading Flow hooks) eqn:Hloading; [done |].
  destruct (getFlow Flow hooks (flowId props)) as [found|] eqn:Hflow; [| done].
  destruct (targetingLogicShouldHideFlow Flow hooks found) eqn:Htarget;
    [done |].
  destruct (bool_decide _) eqn:Hstatus; [done |].
  apply bool_decide_eq_false in Hstatus.
  destruct ((completed =? 1)%nat && negb kept) eqn:Hone; [done |].
  destruct (hasOpenModals Flow hooks) eqn:Hmodals; [done |].
  exfalso.
  destruct Hguard
    as [H | [H | [(flow & H1 & H2) | [H | [[H1 H2] | H]]]]];
    try congruence.
  by rewrite H1, H2 in Hone.
Qed.

(** X10.  The survey renders nothing exactly when one of its guards holds:
    the flows are loading, the flow is not found, the targeting hides it,
    its status is completed, exactly one step is completed and the flow is
    not kept open during the session, or a modal is open.  In every other
    case it renders the survey or throws. *)
Theorem renders_nothing_iff_guarded :
  render = Normal None
  ↔ isLoading Flow hooks = true
    ∨ getFlow Flow hooks (flowId props) = None
    ∨ (∃ flow, getFlow Flow hooks (flowId props) = Some flow
               ∧ targetingLogicShouldHideFlow Flow hooks flow = true)
    ∨ getFlowStatus Flow hooks (flowId props) = Some COMPLETED_FLOW
    ∨ (completed = 1 ∧ kept = false)
    ∨ hasOpenModals Flow hooks = true.
Proof.
  split; [| apply guarded_renders_nothing].
  destruct guards_decide as [Hpass | Hguard]; [| done].
  rewrite (render_past_guards Hpass). unfold screen.
  by destruct (completed =? 0)%nat, (completed =? 1)%nat, currentStep.
Qed.

(** X11.  A rendered survey shows one screen at most, chosen by the number
    of completed steps: the score screen exactly when no step is
    completed, the reason screen exactly when one step is completed, which
    requires the flow to be kept open during the session; each screen is
    that of the current step and of the state. *)
Theorem screen_follows_completed_steps (survey : Survey) :
  render = Normal (Some survey) →
  (is_Some (scoreChooser survey) ↔ completed = 0)
  ∧ (is_Some (scoreReason survey) ↔ completed = 1)
  ∧ (is_Some (scoreReason survey) → kept = true)
  ∧ ¬ (is_Some (scoreChooser survey) ∧ is_Some (scoreReason survey))
  ∧ (∀ chooser, scoreChooser survey = Some chooser →
       ∃ step, currentStep = Some step
               ∧ chooser = getScoreChooser props st step)
  ∧ (∀ reason, scoreReason survey = Some reason →
       ∃ step, currentStep = Some step
               ∧ reason = getScoreReason props st step).
Proof.
  intros Hrender.
  destruct guards_decide as [Hpass | Hguard].
  2: { apply guarded_renders_nothing in Hguard. congruence. }
  destruct Hpass as (Hother & Hstatus & Hone).
  rewrite (render_past_guards (conj Hother (conj Hstatus Hone))) in Hrender.
  unfold screen in Hrender.
  destruct (Nat.eqb_spec completed 0) as [Hzero|Hzero];
    destruct (Nat.eqb_spec completed 1) as [Hcount|Hcount];
    destruct currentStep as [step|]; try done; try lia;
    injection Hrender as <-; simpl;
    rewrite ?is_Some_alt;
    (split; [split; (done || lia) |]);
    (split; [split; (done || lia) |]);
    (split; [try done |]);
    try (split; [by intros [? ?] |]);
    try (split; intros ? [=]; subst; by eexists).
  intros _. destruct kept; [done |]. by destruct Hone.
Qed.

(** X12.  The render function throws exactly when the guards are passed,
    a screen is due (at most one step is completed) and the index of the
    current step is outside the steps of the flow, so that the screen
    reads the title of an undefined step.  With the guards passed and two
    or more steps completed it renders a survey that has no screen, only
    its dismiss button, whatever the current step. *)
Theorem throws_iff_screen_lacks_step :
  (render = Throw ↔ guards_pass ∧ completed ≤ 1 ∧ currentStep = None)
  ∧ (guards_pass → 2 ≤ completed →
     ∃ survey, render = Normal (Some survey)
               ∧ scoreChooser survey = None ∧ scoreReason survey = None).
Proof.
  split; [split |].
  - destruct guards_decide as [Hpass | Hguard].
    + rewrite (render_past_guards Hpass). unfold screen.
      destruct (Nat.eqb_spec completed 0), (Nat.eqb_spec completed 1),
        currentStep; try done; intros _; (split; [done | split; [lia | done]]).
    + by rewrite (guarded_renders_nothing Hguard).
  - intros (Hpass & Hcount & Hstep).
    rewrite (render_past_guards Hpass), Hstep. unfold screen.
    destruct (Nat.eqb_spec completed 0), (Nat.eqb_spec completed 1);
      try done; lia.
  - intros Hpass Hcount. rewrite (render_past_guards Hpass). unfold screen.
    destruct (Nat.eqb_spec completed 0), (Nat.eqb_spec completed 1);
      try lia.
    by eexists.
Qed.

(** X14.  Every rendered survey, whichever screen it shows, has the same
    dismiss handler: it issues the flow-completion call and nothing else
    to the backend, and calls [onDismiss], when the caller supplied it,
    only once that call is fulfilled; it never calls [onButtonClick]. *)
Theorem dismiss_completes_flow_then_notifies (survey : Survey)
    (net : Call → Settlement) :
  render = Normal (Some survey) →
  trace (dismiss_onClick survey) net
  = Issued (markFlowCompleted (flowId props))
    :: match net (markFlowCompleted (flowId props)) with
       | Fulfils =>
           Fulfilled (markFlowCompleted (flowId props))
           :: (if has_onDismiss props then [onDismiss] else [])
       | Rejects => [Rejected (markFlowCompleted (flowId props))]
       | Pends => []
       end.
Proof.
  intros Hrender.
  destruct guards_decide as [Hpass | Hguard].
  2: { apply guarded_renders_nothing in Hguard. congruence. }
  rewrite (render_past_guards Hpass) in Hrender.
  destruct (screen _ _ _) as [chooser|]; [| done].
  destruct (screen _ _ _) as [reason|]; [| done].
  injection Hrender as <-. unfold trace. simpl. unfold bind, await.
  destruct (net (markFlowCompleted (flowId props))); try done.
  by destruct (has_onDismiss props).
Qed.

End Render.

Section Screens.

Variable props : Props.
Variable st : State.
Variable step : StepData.
Variable net : Call → Settlement.

Abbreviation flowCall := (markFlowCompleted (flowId props)).

(** X13.  The text of the text area reaches the backend through Submit
    and through nothing else.  Once a text is typed, the text area shows
    it and the Submit handler of the next render first issues the
    step-completion call carrying that text, followed by the
    flow-completion call when the first is fulfilled; the Skip handler
    issues the flow-completion call alone and does the same whatever was
    typed. *)
Theorem feedback_sent_by_submit_only (value : string) :
  let typed := textarea_onChange value st in
  let reason := getScoreReason props typed step in
  textarea_value reason = value
  ∧ issued (trace (onClick (submit reason)) net)
    = markStepCompleted (flowId props) (id step) (FeedbackText value)
      :: match net (markStepCompleted (flowId props) (id step)
                      (FeedbackText value)) with
         | Fulfils => [flowCall]
         | _ => []
         end
  ∧ issued (trace (onClick (skip reason)) net) = [flowCall]
  ∧ trace (onClick (skip reason)) net
    = trace (onClick (skip (getScoreReason props st step))) net.
Proof.
  cbv zeta. split; [done |].
  rewrite FrigadeNPSSurveySpec.submit_trace, !FrigadeNPSSurveySpec.skip_trace.
  unfold notify. simpl feedbackText.
  split; [| split; [| done]].
  - destruct (net (markStepCompleted _ _ _)); try done.
    by destruct (net flowCall), (has_onButtonClick props).
  - by destruct (net flowCall), (has_onButtonClick props).
Qed.

(** X15.  On the score screen a number button is highlighted exactly when
    its label is the recorded score, so at most one is.  Once the handler
    of button n, for n from 1 to 10, has run and React has committed its
    setter calls, button n and no other is highlighted. *)
Theorem chosen_score_is_highlighted :
  (∀ b, b ∈ numbers (getScoreChooser props st step) →
        selected b = true ↔ score st = Some (label b))
  ∧ ∀ n button,
      numbers (getScoreChooser props st step) !! (n - 1)%nat = Some button →
      (1 ≤ n)%nat →
      let chosen := commit (trace (number_onClick button) net) st in
      score chosen = Some n
      ∧ ∀ b, b ∈ numbers (getScoreChooser props chosen step) →
             selected b = true ↔ label b = n.
Proof.
  assert (Hselected : ∀ st' b,
    b ∈ numbers (getScoreChooser props st' step) →
    selected b = true ↔ score st' = Some (label b)).
  { intros st' b Hb. unfold getScoreChooser in Hb. cbn [numbers] in Hb.
    apply list_elem_of_fmap in Hb as (i & -> & _). simpl.
    unfold is_selected. destruct (score st') as [s|]; [| done].
    rewrite Nat.eqb_eq. split; congruence. }
  split; [apply Hselected |].
  intros n button Hbutton Hn chosen.
  assert (Hscore : score chosen = Some n).
  { apply lookup_lt_Some in Hbutton as Hlt.
    assert (Hten : (n - 1 < 10)%nat) by (by simpl in Hlt).
    rewrite (FrigadeNPSSurveySpec.number_button props st step (n - 1) Hten)
      in Hbutton.
    injection Hbutton as <-. unfold chosen, commit. cbn [score number_onClick].
    rewrite FrigadeNPSSurveySpec.number_onClick_trace.
    replace (n - 1 + 1)%nat with n by lia.
    unfold settled. by destruct (net _). }
  split; [exact Hscore |]. intros b Hb.
  rewrite (Hselected chosen b Hb), Hscore. split; congruence.
Qed.

(** X16.  The Skip and Submit buttons never have an empty title: each
    shows the title that the step configures for it when that title is
    not empty, and Skip, respectively Submit, when it is missing or
    empty. *)
Theorem reason_buttons_are_titled :
  let reason := getScoreReason props st step in
  button_title (skip reason) ≠ ""%string
  ∧ button_title (submit reason) ≠ ""%string
  ∧ (∀ s, secondaryButtonTitle step = Some s → s ≠ ""%string →
          button_title (skip reason) = s)
  ∧ (∀ s, primaryButtonTitle step = Some s → s ≠ ""%string →
          button_title (submit reason) = s)
  ∧ (secondaryButtonTitle step = None ∨ secondaryButtonTitle step = Some ""%string →
     button_title (skip reason) = "Skip"%string)
  ∧ (primaryButtonTitle step = None ∨ primaryButtonTitle step = Some ""%string →
     button_title (submit reason) = "Submit"%string).
Proof.
  cbv zeta. simpl. unfold or_default.
  split; [| split; [| split; [| split; [| split]]]].
  - destruct (secondaryButtonTitle step) as [s|]; [| done].
    destruct (JS.truthy_string s) eqn:Hs; [| done].
    by apply JSFacts.truthy_string_true.
  - destruct (primaryButtonTitle step) as [s|]; [| done].
    destruct (JS.truthy_string s) eqn:Hs; [| done].
    by apply JSFacts.truthy_string_true.
  - intros s -> Hs. by rewrite (proj2 (JSFacts.truthy_string_true s) Hs).
  - intros s -> Hs. by rewrite (proj2 (JSFacts.truthy_string_true s) Hs).
  - by intros [-> | ->].
  - by intros [-> | ->].
Qed.

End Screens.

(** The sample survey after the score was chosen: the reason screen of the
    second step, and a dismiss handler that completes the flow before it
    tells the caller. *)
Lemma screen_follows_completed_steps_witness :
  ∃ survey,
    render "COMPLETED_FLOW" unit nps_props
      (nps_hooks (Some "STARTED_FLOW"%string) 1 true) nps_state
    = Normal (Some survey)
    ∧ scoreChooser survey = None
    ∧ scoreReason survey
      = Some (getScoreReason nps_props nps_state reason_step).
Proof.
  eexists. split; [reflexivity |].
  destruct (screen_follows_completed_steps "COMPLETED_FLOW" unit nps_props
              (nps_hooks (Some "STARTED_FLOW"%string) 1 true) nps_state _
              eq_refl)
    as (Hchooser & _ & _ & _ & _ & Hreason).
  split; [reflexivity |].
  destruct (Hreason _ eq_refl) as (step & Hstep & Hshown).
  injection Hstep as <-. by f_equal.
Defined.

(** A survey whose current step index lies outside its steps throws on
    the score screen, and renders bare once two steps are completed. *)
Lemma throws_iff_screen_lacks_step_witness :
  let lost completed : Hooks unit :=
    {| isLoading := false;
       getFlow := λ _, Some tt;
       targetingLogicShouldHideFlow := λ _, false;
       getFlowStatus := λ _, Some "STARTED_FLOW"%string;
       getNumberOfStepsCompleted := λ _, completed;
       shouldKeepCompletedFlowOpenDuringSession := λ _, true;
       hasOpenModals := false;
       getFlowSteps := λ _, [score_step];
       getCurrentStepIndex := λ _, 5 |} in
  render "COMPLETED_FLOW" unit nps_props (lost 0) nps_state = Throw
  ∧ ∃ survey,
      render "COMPLETED_FLOW" unit nps_props (lost 2) nps_state
      = Normal (Some survey)
      ∧ scoreChooser survey = None ∧ scoreReason survey = None.
Proof.
  intros lost.
  assert (Hpass : ∀ n, n ≠ 1 →
    guards_pass "COMPLETED_FLOW" unit nps_props (lost n)).
  { intros n Hn. split; [| split; [done |]].
    - split; [done |]. split; [by exists tt | done].
    - by intros [? _]. }
  split.
  - apply (throws_iff_screen_lacks_step "COMPLETED_FLOW" unit nps_props
             (lost 0) nps_state).
    split; [by apply Hpass |]. split; [simpl; lia | reflexivity].
  - apply (throws_iff_screen_lacks_step "COMPLETED_FLOW" unit nps_props
             (lost 2) nps_state); [by apply Hpass | simpl; lia].
Defined.

Lemma dismiss_completes_flow_then_notifies_witness :
  ∃ survey,
    render "COMPLETED_FLOW" unit nps_props
      (nps_hooks (Some "STARTED_FLOW"%string) 1 true) nps_state
    = Normal (Some survey)
    ∧ trace (dismiss_onClick survey) (λ _, Fulfils)
      = [Issued (markFlowCompleted "flow_nps");
         Fulfilled (markFlowCompleted "flow_nps"); onDismiss].
Proof.
  eexists. split; [reflexivity |].
  exact (dismiss_completes_flow_then_notifies "COMPLETED_FLOW" unit nps_props
           (nps_hooks (Some "STARTED_FLOW"%string) 1 true) nps_state _
           (λ _, Fulfils) eq_refl).
Defined.

(** Button 7 is chosen in a fresh survey: it alone is highlighted. *)
Lemma chosen_score_is_highlighted_witness :
  let fresh := {| score := None; feedbackText := ""%string |} in
  ∃ button,
    numbers (getScoreChooser nps_props fresh score_step) !! 6 = Some button
    ∧ let chosen := commit (trace (number_onClick button) (λ _, Fulfils)) fresh in
      score chosen = Some 7
      ∧ selected <$> numbers (getScoreChooser nps_props chosen score_step)
        = [false; false; false; false; false; false; true; false; false; false].
Proof.
  intros fresh. eexists. split; [reflexivity |].
  destruct (chosen_score_is_highlighted nps_props fresh score_step
              (λ _, Fulfils)) as [_ Hchosen].
  destruct (Hchosen 7 _ eq_refl ltac:(lia)) as [Hscore _].
  split; [exact Hscore | reflexivity].
Defined.

(** A step that configures an empty title for its primary button and
    Later for the secondary one. *)
Lemma reason_buttons_are_titled_witness :
  let step := {| id := "nps-reason"%string; title := None; subtitle := None;
                 primaryButtonTitle := Some ""%string;
                 secondaryButtonTitle := Some "Later"%string |} in
  let reason := getScoreReason nps_props nps_state step in
  button_title (skip reason) = "Later"%string
  ∧ button_title (submit reason) = "Submit"%string.
Proof.
  intros step reason.
  destruct (reason_buttons_are_titled nps_props nps_state step)
    as (_ & _ & Hskip & _ & _ & Hsubmit).
  split.
  - by apply Hskip.
  - apply Hsubmit. by right.
Defined.

End FrigadeNPSSurveyMore.

(** ** FrigadeProvider: identity over time, appearance and navigation *)

Module FrigadeProviderMore.
Import FrigadeProvider.
Local Open Scope list_scope.

(** *** The identity the context holds *)

Lemma prop_same_eq (a b : IdProp) : prop_same a b = true → a = b.
Proof.
  destruct a as [| |s], b as [| |t]; simpl; try done.
  intros Heq. apply String.eqb_eq in Heq. by subst.
Qed.

Lemma latest_truthy_snoc field history p :
  latest_truthy field (history ++ [p])
  = match prop_or_null (field p) with
    | Some s => Some s
    | None => latest_truthy field history
    end.
Proof. unfold latest_truthy. by rewrite fold_left_app. Qed.

Lemma latest_truthy_app_cons field history p ps :
  latest_truthy field (history ++ p :: ps)
  = latest_truthy field ((history ++ [p]) ++ ps).
Proof. by rewrite <- app_assoc. Qed.

Lemma mount_userIdValue p : userIdValue (mount p) = prop_or_null (userId p).
Proof.
  unfold mount. cbn [apiKey_effect userIdValue].
  rewrite FrigadeProviderSpec.organizationId_effect_user.
  unfold userId_effect, initial.
  by destruct (prop_or_null (userId p)).
Qed.

Lemma mount_organizationIdValue p :
  organizationIdValue (mount p) = prop_or_null (organizationId p).
Proof.
  unfold mount. cbn [apiKey_effect organizationIdValue].
  unfold organizationId_effect.
  destruct (prop_or_null (organizationId p)) eqn:Horg; cbn [organizationIdValue];
    [done |].
  rewrite FrigadeProviderSpec.userId_effect_org. by unfold initial.
Qed.

Lemma renders_userIdValue ps : ∀ history old st,
  userIdValue st = latest_truthy userId (history ++ [old]) →
  userIdValue (renders old st ps).2
  = latest_truthy userId (history ++ old :: ps).
Proof.
  induction ps as [|p ps IH]; intros history old st Hst; [done |].
  cbn [renders]. rewrite (latest_truthy_app_cons _ history old (p :: ps)).
  apply IH. rewrite latest_truthy_snoc, <- Hst.
  rewrite FrigadeProviderSpec.rerender_userIdValue.
  destruct (prop_same (userId old) (userId p)) eqn:Hsame.
  - apply prop_same_eq in Hsame. rewrite <- Hsame.
    rewrite Hst, latest_truthy_snoc. by destruct (prop_or_null (userId old)).
  - unfold userId_effect. by destruct (prop_or_null (userId p)).
Qed.

Lemma renders_organizationIdValue ps : ∀ history old st,
  organizationIdValue st = latest_truthy organizationId (history ++ [old]) →
  organizationIdValue (renders old st ps).2
  = latest_truthy organizationId (history ++ old :: ps).
Proof.
  induction ps as [|p ps IH]; intros history old st Hst; [done |].
  cbn [renders]. rewrite (latest_truthy_app_cons _ history old (p :: ps)).
  apply IH. rewrite latest_truthy_snoc, <- Hst.
  rewrite FrigadeProviderSpec.rerender_organizationIdValue.
  destruct (prop_same (organizationId old) (organizationId p)) eqn:Hsame.
  - apply prop_same_eq in Hsame. rewrite <- Hsame.
    rewrite Hst, latest_truthy_snoc.
    by destruct (prop_or_null (organizationId old)).
  - unfold organizationId_effect.
    by destruct (prop_or_null (organizationId p)).
Qed.

Lemma run_snoc p ps p' :
  run p (ps ++ [p']) = (p', rerender (run p ps).1 p' (run p ps).2).
Proof.
  unfold run. generalize (mount p). revert p.
  induction ps as [|q ps IH]; intros p st; [done |]. apply IH.
Qed.

(** X17.  At the first render, and after the effects of every render have
    run, the context publishes as user id the latest truthy [userId] prop
    among those of the mount and of the renders so far, and null when
    there has been none; likewise for the organization id.  A render that
    receives new props is first made with the cells as the previous
    effects left them, so with the latest truthy id of the props before
    it, and publishes the id of its own props once its effects have run.
    Props alone never bring a provider back to no user. *)
Theorem context_holds_latest_truthy_ids (p : Props) (ps : list Props) :
  (context_userId (initial p) = latest_truthy userId [p]
   ∧ context_organizationId (initial p) = latest_truthy organizationId [p])
  ∧ (context_userId (run p ps).2 = latest_truthy userId (p :: ps)
     ∧ context_organizationId (run p ps).2
       = latest_truthy organizationId (p :: ps))
  ∧ ∀ next,
      let before_effects := (run p ps).2 in
      let after_effects := rerender (run p ps).1 next before_effects in
      context_userId before_effects = latest_truthy userId (p :: ps)
      ∧ context_userId after_effects
        = latest_truthy userId (p :: ps ++ [next])
      ∧ context_organizationId before_effects
        = latest_truthy organizationId (p :: ps)
      ∧ context_organizationId after_effects
        = latest_truthy organizationId (p :: ps ++ [next]).
Proof.
  assert (Hrun : ∀ qs,
    context_userId (run p qs).2 = latest_truthy userId (p :: qs)
    ∧ context_organizationId (run p qs).2
      = latest_truthy organizationId (p :: qs)).
  { intros qs. unfold context_userId, context_organizationId, run. split.
    - apply (renders_userIdValue qs [] p). rewrite mount_userIdValue.
      unfold latest_truthy. simpl. by destruct (prop_or_null (userId p)).
    - apply (renders_organizationIdValue qs [] p).
      rewrite mount_organizationIdValue.
      unfold latest_truthy. simpl.
      by destruct (prop_or_null (organizationId p)). }
  split; [| split; [apply Hrun |]].
  - unfold context_userId, context_organizationId, latest_truthy. simpl.
    by destruct (prop_or_null (userId p)), (prop_or_null (organizationId p)).
  - intros next. cbv zeta.
    destruct (Hrun ps) as [Huser Horg].
    destruct (Hrun (ps ++ [next])) as [Huser' Horg'].
    rewrite run_snoc in Huser', Horg'. by simpl in Huser', Horg'.
Qed.

(** *** Appearance *)

Lemma get_prop_absent (name : string) (props : list (string * JS.Value)) :
  name ∉ props.*1 → JS.get_prop name props = None.
Proof.
  induction props as [|[k v] props IH]; simpl; [done |].
  intros Hnot. apply not_elem_of_cons in Hnot as [Hne Hnot].
  destruct (String.eqb_spec k name); [congruence | by apply IH].
Qed.

(** Spreading properties with distinct names over others: the spread
    ones win, the others stay. *)
Lemma get_prop_spread_over (name : string)
    (overrides base : list (string * JS.Value)) :
  NoDup overrides.*1 →
  JS.get_prop name
    (fold_left (λ props kv, JS.set_prop kv.1 kv.2 props) overrides base)
  = match JS.get_prop name overrides with
    | Some v => Some v
    | None => JS.get_prop name base
    end.
Proof.
  induction overrides as [|[k v] overrides IH] using rev_ind; [done |].
  rewrite fmap_app, fold_left_app. simpl. intros Hnodup.
  apply NoDup_app in Hnodup as (Hnodup & Hfresh & _).
  destruct (String.eqb_spec k name) as [->|Hne].
  - rewrite JSFacts.get_set_prop_eq.
    rewrite JSFacts.get_prop_app_None; [simpl; by rewrite String.eqb_refl |].
    apply get_prop_absent. intros Hin. apply (Hfresh name Hin). by left.
  - rewrite (JSFacts.get_set_prop_ne _ _ _ _ Hne), (IH Hnodup).
    by rewrite (JSFacts.get_prop_app_ne _ _ _ _ Hne).
Qed.

Section Appearance.

Variable Navigate : Type.
Variable DefaultAppearance : Appearance.

Abbreviation appearance := (appearance Navigate DefaultAppearance).
Abbreviation configured := (configured Navigate).

(** X18.  The appearance of the context is the default appearance with
    the configured one spread over it, part by part.  Since the names of
    an object are distinct, the theme holds under every name the
    configured value when the configuration has one and the default
    value otherwise; so do the style overrides.  Without a configuration,
    or with one that configures no appearance, both parts are the
    defaults. *)
Theorem appearance_overrides_defaults
    (config : option (FrigadeConfig Navigate)) (name : string) :
  (NoDup (keys (configured config_theme config)) →
   JS.get (theme (appearance config)) name
   = match JS.get_prop name (JS.spread (configured config_theme config)) with
     | Some v => Some v
     | None => JS.get_prop name (JS.spread (theme DefaultAppearance))
     end)
  ∧ (NoDup (keys (configured config_styleOverrides config)) →
     JS.get (styleOverrides (appearance config)) name
     = match JS.get_prop name
               (JS.spread (configured config_styleOverrides config)) with
       | Some v => Some v
       | None => JS.get_prop name (JS.spread (styleOverrides DefaultAppearance))
       end)
  ∧ (config = None
     ∨ (∃ c, config = Some c ∧ defaultAppearance Navigate c = None) →
     theme (appearance config) = JS.VObject (JS.spread (theme DefaultAppearance))
     ∧ styleOverrides (appearance config)
       = JS.VObject (JS.spread (styleOverrides DefaultAppearance))).
Proof.
  split; [| split].
  - intros Hnodup. apply get_prop_spread_over, Hnodup.
  - intros Hnodup. apply get_prop_spread_over, Hnodup.
  - by intros [-> | (c & -> & Hnone)];
      unfold FrigadeProvider.appearance, FrigadeProvider.configured;
      rewrite ?Hnone.
Qed.

(** The [navigate] of the context is the function of the caller
    whenever the configuration supplies one, and the provider's own
    otherwise, also when there is no configuration at all. *)
Lemma context_navigate_prefers_caller
    (config : option (FrigadeConfig Navigate)) :
  match config ≫= FrigadeProvider.navigate Navigate with
  | Some f => context_navigate Navigate config = caller_navigate Navigate f
  | None => context_navigate Navigate config = own_navigate Navigate
  end.
Proof. destruct config as [[[f|] ?]|]; reflexivity. Qed.

End Appearance.

(** A configuration that overrides the primary colour only. *)
Lemma appearance_overrides_defaults_witness :
  let themed := theme (FrigadeProvider.appearance unit sample_default
                         (Some sample_config)) in
  JS.get themed "colorPrimary" = Some (JS.VString "#FF0000")
  ∧ JS.get themed "colorText" = Some (JS.VString "#000000")
  ∧ theme (FrigadeProvider.appearance unit sample_default None)
    = theme sample_default.
Proof.
  intros themed.
  assert (Hnodup : NoDup (keys (FrigadeProvider.configured unit config_theme
                                  (Some sample_config)))).
  { unfold keys. simpl. apply NoDup_singleton. }
  split; [| split].
  - apply (appearance_overrides_defaults unit sample_default
             (Some sample_config) "colorPrimary"), Hnodup.
  - apply (appearance_overrides_defaults unit sample_default
             (Some sample_config) "colorText"), Hnodup.
  - apply (appearance_overrides_defaults unit sample_default None ""%string).
    by left.
Defined.

(** A provider mounted anonymous, then rendered for user-1, anonymous
    again, for user-2 and with an empty id: it publishes user-2. *)
Lemma context_holds_latest_truthy_ids_example :
  let anonymous := {| publicApiKey := "api_public_0123456789"%string;
                      userId := Undefined; organizationId := Undefined |} in
  let user (name : string) :=
    {| publicApiKey := "api_public_0123456789"%string;
       userId := Str name; organizationId := Undefined |} in
  context_userId
    (run anonymous [user "user-1"; anonymous; user "user-2"; user ""]).2
  = Some "user-2"%string.
Proof.
  intros anonymous user.
  by rewrite (proj1 (proj1 (proj2 (context_holds_latest_truthy_ids anonymous _)))).
Defined.

(** *** Navigation *)

(** X19.  The provider's own [navigate] sends the window to the given url
    exactly once.  For the target [_blank], and for no other, it opens the
    url in a new tab at once and leaves the location of the page alone;
    for every other target it opens nothing and sets the location of the
    page from a timer of 50 ms, never at once. *)
Theorem internalNavigate_navigates_once (url target : string) :
  flat_map navigations (internalNavigate url target) = [url]
  ∧ (target = "_blank"%string →
     internalNavigate url target = [window_open url "_blank"])
  ∧ (target ≠ "_blank"%string →
     internalNavigate url target = [setTimeout 50 [set_location_href url]])
  ∧ ∀ effect, effect ∈ internalNavigate url target →
      match effect with
      | window_open _ to => to = "_blank"%string ∧ target = "_blank"%string
      | setTimeout ms _ => ms = 50%nat ∧ target ≠ "_blank"%string
      | set_location_href _ => False
      end.
Proof.
  unfold internalNavigate.
  destruct (String.eqb_spec target "_blank") as [->|Hne];
    (split; [done |]); (split; [done |]); (split; [done |]);
    intros effect Heffect; apply list_elem_of_singleton in Heffect as ->; done.
Qed.

(** Opening in a new tab, and going to a page in the same tab. *)
Lemma internalNavigate_navigates_once_witness :
  internalNavigate "https://frigade.com" "_blank"
  = [window_open "https://frigade.com" "_blank"]
  ∧ internalNavigate "/welcome" "_self"
    = [setTimeout 50 [set_location_href "/welcome"]].
Proof.
  split.
  - by apply (internalNavigate_navigates_once "https://frigade.com" "_blank").
  - by apply (internalNavigate_navigates_once "/welcome" "_self").
Defined.

End FrigadeProviderMore.
